(** * The generational MO-CMA-ES loop of Shark (shark::detail::MOCMA)

    A shallow embedding of [include/shark/Algorithms/DirectSearch/MOCMA.h]:
    the optimizer object, its two [init] overloads, [serialize] and [step].

    Conventions.
    - A C++ [double] is read as a real number ([R]); the header never
      compares two doubles, so its functions still evaluate.  Only the
      selection modelled from the specification compares fitness values,
      through [Rle_dec] and [Rlt_dec].
    - [std::size_t] / [unsigned int] indices and counters are [nat]; the
      header multiplies [mu] (an [unsigned int]) by two in [std::size_t],
      which does not wrap on a 64-bit target.  The widths of [age] and
      [rank] are declared in CMAIndividual.h, which is not at hand; they are
      counted without wrap-around.
    - [m_pop] is a [std::vector]; it is a [list] read with [!!] and written
      with [<[i:=x]>].  An access outside the vector is undefined behaviour
      in C++; here it makes the enclosing operation return [None].
    - The random source and the evaluation counters are global, mutable
      objects in Shark.  They are collected in an explicit world state [W]
      that every collaborator call receives and returns. *)

From Stdlib Require Import Reals Lra String.
From stdpp Require Import base option list.

Local Open Scope nat_scope.

(** ** Data model *)

Abbreviation RealVector := (list R).

(** [ResultSet<RealVector, RealVector>] built by [makeResultSet]. *)
Record ResultSet := makeResultSet {
  rs_point : RealVector;
  rs_value : RealVector
}.

Definition SolutionSetType := list ResultSet.

(** Modelled from the spec: the class CMAIndividual (CMAIndividual.h is not
    part of the sources).  The fields are those of the specification's data
    model, under the accessor names that MOCMA.h uses; [stepSize] is the
    sigma handed to the constructor and [targetSuccess] the success
    threshold handed to it. *)
Record CMAIndividual := mkCMAIndividual {
  searchPoint : RealVector;
  penalizedFitness : RealVector;
  unpenalizedFitness : RealVector;
  age : nat;
  rank : nat;
  selected : bool;
  noSuccessfulOffspring : R;
  stepSize : R;
  targetSuccess : R
}.

Definition set_searchPoint (x : RealVector) (ind : CMAIndividual) : CMAIndividual :=
  mkCMAIndividual x (penalizedFitness ind) (unpenalizedFitness ind) (age ind)
    (rank ind) (selected ind) (noSuccessfulOffspring ind) (stepSize ind)
    (targetSuccess ind).

Definition set_penalizedFitness (v : RealVector) (ind : CMAIndividual) : CMAIndividual :=
  mkCMAIndividual (searchPoint ind) v (unpenalizedFitness ind) (age ind)
    (rank ind) (selected ind) (noSuccessfulOffspring ind) (stepSize ind)
    (targetSuccess ind).

Definition set_unpenalizedFitness (v : RealVector) (ind : CMAIndividual) : CMAIndividual :=
  mkCMAIndividual (searchPoint ind) (penalizedFitness ind) v (age ind)
    (rank ind) (selected ind) (noSuccessfulOffspring ind) (stepSize ind)
    (targetSuccess ind).

Definition set_age (a : nat) (ind : CMAIndividual) : CMAIndividual :=
  mkCMAIndividual (searchPoint ind) (penalizedFitness ind)
    (unpenalizedFitness ind) a (rank ind) (selected ind)
    (noSuccessfulOffspring ind) (stepSize ind) (targetSuccess ind).

Definition set_noSuccessfulOffspring (c : R) (ind : CMAIndividual) : CMAIndividual :=
  mkCMAIndividual (searchPoint ind) (penalizedFitness ind)
    (unpenalizedFitness ind) (age ind) (rank ind) (selected ind) c
    (stepSize ind) (targetSuccess ind).

Definition set_stepSize (s : R) (ind : CMAIndividual) : CMAIndividual :=
  mkCMAIndividual (searchPoint ind) (penalizedFitness ind)
    (unpenalizedFitness ind) (age ind) (rank ind) (selected ind)
    (noSuccessfulOffspring ind) s (targetSuccess ind).

(** [ind.noSuccessfulOffspring() += 1.0] *)
Definition credit_success (ind : CMAIndividual) : CMAIndividual :=
  set_noSuccessfulOffspring (noSuccessfulOffspring ind + 1)%R ind.

(** [ind.age()++] *)
Definition increment_age (ind : CMAIndividual) : CMAIndividual :=
  set_age (S (age ind)) ind.

(** [CMAIndividual::IsSelected], the predicate handed to [std::partition]. *)
Definition IsSelected (ind : CMAIndividual) : bool := selected ind.

(** Modelled from the spec: the constructor
    [CMAIndividual(noVariables, noObjectives, successThreshold, initialSigma)]
    (not part of the sources).  The search point has the problem's variable
    count, the fitness vectors its objective count, the step size is the
    sigma passed in, and the counters start at zero. *)
Definition newCMAIndividual (noVariables noObjectives : nat)
    (successThreshold initialSigma : R) : CMAIndividual :=
  mkCMAIndividual (replicate noVariables 0%R) (replicate noObjectives 0%R)
    (replicate noObjectives 0%R) 0 0 false 0%R initialSigma successThreshold.

Abbreviation Population := (list CMAIndividual).

(** [m_pop[i]] as an rvalue and [m_pop[i] = x]; both are undefined outside
    the vector. *)
Definition read (pop : Population) (i : nat) : option CMAIndividual := pop !! i.

Definition write (pop : Population) (i : nat) (x : CMAIndividual) : option Population :=
  if decide (i < length pop) then Some (<[i:=x]> pop) else None.

(** ** [std::partition]

    MOCMA.h calls [std::partition(m_pop.begin(), m_pop.end(), IsSelected)].
    For the bidirectional iterators of a vector the library runs the
    two-ended exchange loop

<<
      while (true) {
        while (true)
          if (first == last) return first;
          else if (pred(first[0])) ++first;
          else break;
        --last;
        while (true)
          if (first == last) return first;
          else if (!pred(last[0])) --last;
          else break;
        iter_swap(first, last);
        ++first;
      }
>>

    Iterators are positions in the vector.  The two inner scans recurse on
    the distance [last - first]; the outer loop takes fuel, and
    [std_partition] supplies more than it can use. *)

(** Forward scan: the first position in [[first, first + n]] that is either
    the end of the range or holds an element rejected by the predicate. *)
Fixpoint scan_forward (pred : CMAIndividual -> bool) (v : Population)
    (n first : nat) : nat :=
  match n with
  | 0 => first
  | S n' =>
      match v !! first with
      | Some x => if pred x then scan_forward pred v n' (S first) else first
      | None => first
      end
  end.

(** Backward scan: starting at [last] and going down at most [n] positions,
    the first position that is either the start of the range or holds an
    element accepted by the predicate. *)
Fixpoint scan_backward (pred : CMAIndividual -> bool) (v : Population)
    (n last : nat) : nat :=
  match n with
  | 0 => last
  | S n' =>
      match v !! last with
      | Some x => if pred x then last else scan_backward pred v n' (last - 1)
      | None => last
      end
  end.

(** [std::iter_swap(first, last)] *)
Definition iter_swap (v : Population) (i j : nat) : Population :=
  match v !! i, v !! j with
  | Some a, Some b => <[j:=a]> (<[i:=b]> v)
  | _, _ => v
  end.

Fixpoint partition_loop (fuel : nat) (pred : CMAIndividual -> bool)
    (v : Population) (first last : nat) : option (Population * nat) :=
  match fuel with
  | 0 => None
  | S fuel' =>
      let first1 := scan_forward pred v (last - first) first in
      if first1 =? last then Some (v, first1) else
      let last1 := last - 1 in
      let last2 := scan_backward pred v (last1 - first1) last1 in
      if first1 =? last2 then Some (v, first1) else
      partition_loop fuel' pred (iter_swap v first1 last2) (S first1) last2
  end.

(** The vector after [std::partition(v.begin(), v.end(), pred)] together
    with the returned partition point. *)
Definition std_partition (pred : CMAIndividual -> bool) (v : Population)
    : option (Population * nat) :=
  partition_loop (S (length v)) pred v 0 (length v).

(** ** The optimizer object and its collaborators *)

(** [shark::moo::PenalizingEvaluator]: MOCMA.h touches its public
    [m_penaltyFactor] and calls it on an objective and a point. *)
Record PenalizingEvaluator := mkPenalizingEvaluator {
  m_penaltyFactor : R
}.

(** The [boost::tuple] returned by the evaluator; [PENALIZED_RESULT] and
    [UNPENALIZED_RESULT] select its two components. *)
Record EvaluationResult := mkEvaluationResult {
  PENALIZED_RESULT : RealVector;
  UNPENALIZED_RESULT : RealVector
}.

(** [IndicatorBasedSelection<Indicator>]: MOCMA.h reads its public [m_mu]
    (in [mu()]) and sets it through [setMu]. *)
Record IndicatorBasedSelection := mkIndicatorBasedSelection {
  m_mu : nat
}.

Definition setMu (mu : nat) (sel : IndicatorBasedSelection) : IndicatorBasedSelection :=
  mkIndicatorBasedSelection mu.

Record MOCMA := mkMOCMA {
  m_pop : Population;
  m_evaluator : PenalizingEvaluator;
  m_selection : IndicatorBasedSelection;
  m_useNewUpdate : bool;
  m_individualSuccessThreshold : R;
  m_initialSigma : R
}.

Definition mu (s : MOCMA) : nat := m_mu (m_selection s).

Definition set_m_pop (pop : Population) (s : MOCMA) : MOCMA :=
  mkMOCMA pop (m_evaluator s) (m_selection s) (m_useNewUpdate s)
    (m_individualSuccessThreshold s) (m_initialSigma s).

Definition set_m_evaluator (e : PenalizingEvaluator) (s : MOCMA) : MOCMA :=
  mkMOCMA (m_pop s) e (m_selection s) (m_useNewUpdate s)
    (m_individualSuccessThreshold s) (m_initialSigma s).

Definition set_m_selection (sel : IndicatorBasedSelection) (s : MOCMA) : MOCMA :=
  mkMOCMA (m_pop s) (m_evaluator s) sel (m_useNewUpdate s)
    (m_individualSuccessThreshold s) (m_initialSigma s).

Definition set_m_useNewUpdate (b : bool) (s : MOCMA) : MOCMA :=
  mkMOCMA (m_pop s) (m_evaluator s) (m_selection s) b
    (m_individualSuccessThreshold s) (m_initialSigma s).

Definition set_m_individualSuccessThreshold (t : R) (s : MOCMA) : MOCMA :=
  mkMOCMA (m_pop s) (m_evaluator s) (m_selection s) (m_useNewUpdate s) t
    (m_initialSigma s).

Definition set_m_initialSigma (sigma : R) (s : MOCMA) : MOCMA :=
  mkMOCMA (m_pop s) (m_evaluator s) (m_selection s) (m_useNewUpdate s)
    (m_individualSuccessThreshold s) sigma.

Definition DEFAULT_MU : nat := 100.
Definition DEFAULT_PENALTY_FACTOR : R := (1 / 1000000)%R.
Definition DEFAULT_SUCCESS_THRESHOLD : R := (44 / 100)%R.
Definition DEFAULT_NOTION_OF_SUCCESS : string := "IndividualBased".
Definition DEFAULT_INITIAL_SIGMA : R := 1%R.

(** ** [init(mu, penaltyFactor, successThreshold, notionOfSuccess, initialSigma)] *)

(** How a call ends: it returns, or it leaves through an exception. *)
Inductive outcome (A : Type) : Type :=
  | Returned (a : A)
  | Thrown (what : string).
Arguments Returned {A} a.
Arguments Thrown {A} what.

(** The body has four assignments and one two-armed conditional without a
    final [else]; there is no [throw] and no check on any path. *)
Definition init (mu : nat) (penaltyFactor successThreshold : R)
    (notionOfSuccess : string) (initialSigma : R) (s : MOCMA) : outcome MOCMA :=
  let s := set_m_selection (setMu mu (m_selection s)) s in
  let s := set_m_initialSigma initialSigma s in
  let s := set_m_evaluator (mkPenalizingEvaluator penaltyFactor) s in
  let s := set_m_individualSuccessThreshold successThreshold s in
  if String.eqb notionOfSuccess "IndividualBased" then
    Returned (set_m_useNewUpdate false s)
  else if String.eqb notionOfSuccess "PopulationBased" then
    Returned (set_m_useNewUpdate true s)
  else Returned s.

(** ** [serialize]

    A Boost archive is a sequence of values; [archive & x] appends [x] when
    storing and reads the next value into [x] when loading. *)
Inductive ArchiveItem : Type :=
  | ItemPopulation (pop : Population)
  | ItemEvaluator (e : PenalizingEvaluator)
  | ItemSelection (sel : IndicatorBasedSelection)
  | ItemBool (b : bool)
  | ItemDouble (x : R).

Definition Archive := list ArchiveItem.

(** [serialize] on an output archive. *)
Definition serialize_save (s : MOCMA) (archive : Archive) : Archive :=
  archive ++ [ItemPopulation (m_pop s); ItemEvaluator (m_evaluator s);
              ItemSelection (m_selection s); ItemBool (m_useNewUpdate s)].

(** [serialize] on an input archive: the object after loading and the rest
    of the archive; [None] when the archive does not hold these four values
    next. *)
Definition serialize_load (s : MOCMA) (archive : Archive) : option (MOCMA * Archive) :=
  match archive with
  | ItemPopulation pop :: ItemEvaluator e :: ItemSelection sel :: ItemBool b :: rest =>
      Some (set_m_useNewUpdate b (set_m_selection sel (set_m_evaluator e (set_m_pop pop s))), rest)
  | _ => None
  end.

(** ** Collaborators that live outside the header

    - [mutate] and [update] are member functions of CMAIndividual;
      [mutate] draws from the global random source.
    - [evaluate] is [PenalizingEvaluator::operator()]; it also bumps the
      objective's evaluation counter.
    - [select] is [IndicatorBasedSelection::operator()], which works on the
      population in place (an approximating indicator samples at random).
    - the three members of the objective-function concept that [init] uses. *)
Record Collaborators (W Objective : Type) := mkCollaborators {
  mutate : CMAIndividual -> W -> CMAIndividual * W;
  update : CMAIndividual -> CMAIndividual;
  evaluate : PenalizingEvaluator -> Objective -> RealVector -> W -> EvaluationResult * W;
  select : IndicatorBasedSelection -> Population -> W -> Population * W;
  numberOfObjectives : Objective -> nat;
  numberOfVariables : Objective -> nat;
  proposeStartingPoint : Objective -> RealVector -> W -> RealVector * W
}.
Arguments mutate {W Objective} _ _ _.
Arguments update {W Objective} _ _.
Arguments evaluate {W Objective} _ _ _ _ _.
Arguments select {W Objective} _ _ _ _.
Arguments numberOfObjectives {W Objective} _ _.
Arguments numberOfVariables {W Objective} _ _.
Arguments proposeStartingPoint {W Objective} _ _ _ _.

(** [for (i = 0; i < n; i++) body] over a state that may become undefined. *)
Fixpoint for_each {St : Type} (body : nat -> St -> option St) (indices : list nat)
    (st : St) : option St :=
  match indices with
  | [] => Some st
  | i :: rest =>
      match body i st with
      | Some st' => for_each body rest st'
      | None => None
      end
  end.

Section Optimizer.
Context {W Objective : Type} (E : Collaborators W Objective).

(** *** [init(f, sp)] *)

(** One turn of the loop: construct, propose, evaluate, [push_back]. *)
Definition init_body (f : Objective) (s : MOCMA) (noVariables noObjectives : nat)
    (st : Population * W) : Population * W :=
  let '(pop, w) := st in
  let ind := newCMAIndividual noVariables noObjectives
               (m_individualSuccessThreshold s) (m_initialSigma s) in
  let '(x, w1) := proposeStartingPoint E f (searchPoint ind) w in
  let ind := set_searchPoint x ind in
  let '(result, w2) := evaluate E (m_evaluator s) f (searchPoint ind) w1 in
  let ind := set_penalizedFitness (PENALIZED_RESULT result) ind in
  let ind := set_unpenalizedFitness (UNPENALIZED_RESULT result) ind in
  (pop ++ [ind], w2).

Fixpoint init_loop (n : nat) (f : Objective) (s : MOCMA)
    (noVariables noObjectives : nat) (st : Population * W) : Population * W :=
  match n with
  | 0 => st
  | S n' => init_loop n' f s noVariables noObjectives
              (init_body f s noVariables noObjectives st)
  end.

(** [sp] is a parameter of the C++ function; its body never reads it. *)
Definition init_objective (f : Objective) (sp : RealVector) (s : MOCMA) (w : W)
    : MOCMA * W :=
  let noObjectives := numberOfObjectives E f in
  let noVariables := numberOfVariables E f in
  let '(pop, w') := init_loop (2 * mu s) f s noVariables noObjectives (m_pop s, w) in
  (set_m_pop pop s, w').

(** *** [step(f)] *)

(** generate new offspring, slot [mu + i] from parent [i] *)
Definition offspring_body (f : Objective) (s : MOCMA) (i : nat)
    (st : Population * W) : option (Population * W) :=
  let '(pop, w) := st in
  parent ← read pop i;
  pop1 ← write pop (mu s + i) parent;
  c ← read pop1 (mu s + i);
  let '(c, w1) := mutate E c w in
  let c := set_age 0 c in
  let '(result, w2) := evaluate E (m_evaluator s) f (searchPoint c) w1 in
  let c := set_penalizedFitness (PENALIZED_RESULT result) c in
  let c := set_unpenalizedFitness (UNPENALIZED_RESULT result) c in
  pop2 ← write pop1 (mu s + i) c;
  Some (pop2, w2).

(** credit offspring [mu + i] and parent [i] *)
Definition credit_pair (m i : nat) (pop : Population) : option Population :=
  o ← read pop (m + i);
  pop1 ← write pop (m + i) (credit_success o);
  p ← read pop1 i;
  write pop1 i (credit_success p).

(** new update: an offspring is successful if it is selected *)
Definition success_new (m i : nat) (pop : Population) : option Population :=
  o ← read pop (m + i);
  if selected o then credit_pair m i pop else Some pop.

(** old update: the offspring must also rank no worse than its parent;
    [&&] reads the parent only when the offspring is selected *)
Definition success_old (m i : nat) (pop : Population) : option Population :=
  o ← read pop (m + i);
  if selected o then
    p ← read pop i;
    if rank o <=? rank p then credit_pair m i pop else Some pop
  else Some pop.

(** update individuals and generate solution set *)
Definition survivor_body (i : nat) (st : Population * SolutionSetType)
    : option (Population * SolutionSetType) :=
  let '(pop, solutionSet) := st in
  ind ← read pop i;
  let ind := increment_age ind in
  let ind := update E ind in
  pop1 ← write pop i ind;
  Some (pop1, solutionSet ++ [makeResultSet (searchPoint ind) (unpenalizedFitness ind)]).

(** The five phases of [step], in source order. *)
Definition step_offspring (f : Objective) (s : MOCMA) (w : W) : option (Population * W) :=
  for_each (offspring_body f s) (seq 0 (mu s)) (m_pop s, w).

Definition step_select (s : MOCMA) (st : Population * W) : Population * W :=
  select E (m_selection s) (fst st) (snd st).

Definition step_success (s : MOCMA) (pop : Population) : option Population :=
  if m_useNewUpdate s then for_each (success_new (mu s)) (seq 0 (mu s)) pop
  else for_each (success_old (mu s)) (seq 0 (mu s)) pop.

Definition step_partition (pop : Population) : option Population :=
  fst <$> std_partition IsSelected pop.

Definition step_survivors (s : MOCMA) (pop : Population)
    : option (Population * SolutionSetType) :=
  for_each survivor_body (seq 0 (mu s)) (pop, []).

(** What [step] does once the offspring exist. *)
Definition after_offspring (s : MOCMA) (st : Population * W)
    : option (SolutionSetType * MOCMA * W) :=
  let '(pop2, w2) := step_select s st in
  pop3 ← step_success s pop2;
  pop4 ← step_partition pop3;
  '(pop5, solutionSet) ← step_survivors s pop4;
  Some (solutionSet, set_m_pop pop5 s, w2).

Definition step (f : Objective) (s : MOCMA) (w : W)
    : option (SolutionSetType * MOCMA * W) :=
  st1 ← step_offspring f s w;
  after_offspring s st1.

(** The population as [std::partition] receives it. *)
Definition before_partition (f : Objective) (s : MOCMA) (w : W) : option Population :=
  st1 ← step_offspring f s w;
  step_success s (fst (step_select s st1)).

End Optimizer.

(** ** Runs of the optimizer *)

Section Runs.
Context {W Objective : Type} (E : Collaborators W Objective).

(** What one generation shows to an observer: the returned survivor set
    and the step sizes of the survivors. *)
Definition Generation : Type := SolutionSetType * list R.

Definition observe (solutionSet : SolutionSetType) (s : MOCMA) : Generation :=
  (solutionSet, stepSize <$> take (mu s) (m_pop s)).

(** [n] calls of [step(f)] in a row. *)
Fixpoint run (n : nat) (f : Objective) (s : MOCMA) (w : W)
    : option (list Generation * MOCMA * W) :=
  match n with
  | 0 => Some ([], s, w)
  | S n' =>
      '(solutionSet, s1, w1) ← step E f s w;
      '(trace, s2, w2) ← run n' f s1 w1;
      Some (observe solutionSet s1 :: trace, s2, w2)
  end.

(** [init(f, sp)] followed by [n] calls of [step(f)]. *)
Definition optimize (n : nat) (f : Objective) (sp : RealVector) (s : MOCMA) (w : W)
    : option (list Generation * MOCMA * W) :=
  let '(s0, w0) := init_objective E f sp s w in
  run n f s0 w0.

End Runs.

(** ** Step-size adaptation of an individual *)

Section StepSizeAdaptation.
(** The constants of the rule: the learning-rate exponent, the floor under
    the step size, and the way the success counter is turned into an
    observed success rate. *)
Variables (learningRate stepSizeFloor : R) (observedRate : R -> R).

(** Modelled from the spec: [CMAIndividual::update()] (not part of the
    sources).  The step size is multiplied by the exponential of the
    learning rate times the excess of the observed success rate over the
    target, so it grows when the rate exceeds the target and shrinks
    below it, and it is clamped from below by the floor. *)
Definition update_step_size (ind : CMAIndividual) : CMAIndividual :=
  set_stepSize
    (Rmax stepSizeFloor
       (stepSize ind *
        exp (learningRate *
             (observedRate (noSuccessfulOffspring ind) - targetSuccess ind))))%R
    ind.

(** Modelled from the spec: [CMAIndividual::mutate()] (not part of the
    sources) for one vector of standard-normal draws: the search point is
    moved by the draws scaled by the step size. *)
Definition mutate_with (draws : RealVector) (ind : CMAIndividual) : CMAIndividual :=
  set_searchPoint
    (zip_with (fun x z => (x + stepSize ind * z)%R) (searchPoint ind) draws) ind.

(** The operations MOCMA.h applies to an individual. *)
Inductive IndividualOp : Type :=
  | OpMutate (draws : RealVector)
  | OpResetAge
  | OpStoreFitness (result : EvaluationResult)
  | OpAccumulate (successes : R)
  | OpIncrementAge
  | OpUpdate.

Definition apply_op (ind : CMAIndividual) (op : IndividualOp) : CMAIndividual :=
  match op with
  | OpMutate draws => mutate_with draws ind
  | OpResetAge => set_age 0 ind
  | OpStoreFitness result =>
      set_unpenalizedFitness (UNPENALIZED_RESULT result)
        (set_penalizedFitness (PENALIZED_RESULT result) ind)
  | OpAccumulate c => set_noSuccessfulOffspring (noSuccessfulOffspring ind + c)%R ind
  | OpIncrementAge => increment_age ind
  | OpUpdate => update_step_size ind
  end.

Definition apply_ops (ops : list IndividualOp) (ind : CMAIndividual) : CMAIndividual :=
  fold_left apply_op ops ind.

End StepSizeAdaptation.

(** ** Statements about configuration *)

(** The two configuration errors the specification names for the first
    [init] overload. *)
Definition invalid_configuration (mu : nat) (notionOfSuccess : string) : Prop :=
  mu = 0 \/
  (notionOfSuccess <> "IndividualBased"%string /\
   notionOfSuccess <> "PopulationBased"%string).

(** ** A small instance to run the model on

    The world is a counter that every draw and every evaluation advances.
    The objective is the identity on points.  Selection keeps the parents at
    odd positions and the offspring of the parents at even positions. *)
Module Toy.

Definition World := nat.
Definition Objective := unit.

Definition toy_mutate (ind : CMAIndividual) (w : World) : CMAIndividual * World :=
  (set_searchPoint (INR w :: searchPoint ind) ind, S w).

Definition toy_update (ind : CMAIndividual) : CMAIndividual :=
  set_stepSize (stepSize ind / 2)%R ind.

Definition toy_evaluate (ev : PenalizingEvaluator) (f : Objective) (x : RealVector)
    (w : World) : EvaluationResult * World :=
  (mkEvaluationResult (m_penaltyFactor ev :: x) x, S w).

Definition toy_flag (m i : nat) (ind : CMAIndividual) : CMAIndividual :=
  mkCMAIndividual (searchPoint ind) (penalizedFitness ind) (unpenalizedFitness ind)
    (age ind) (if i <? m then 1 else 0)
    (if i <? m then Nat.odd i else Nat.even (i - m))
    (noSuccessfulOffspring ind) (stepSize ind) (targetSuccess ind).

Definition toy_select (sel : IndicatorBasedSelection) (pop : Population) (w : World)
    : Population * World :=
  (imap (toy_flag (m_mu sel)) pop, w).

Definition toy_propose (f : Objective) (x : RealVector) (w : World)
    : RealVector * World :=
  ((fun _ => INR w) <$> x, S w).

Definition env : Collaborators World Objective :=
  mkCollaborators World Objective toy_mutate toy_update toy_evaluate toy_select
    (fun _ => 2) (fun _ => 1) toy_propose.

(** An optimizer configured for two parents, before [init(f)]. *)
Definition configured : MOCMA :=
  mkMOCMA [] (mkPenalizingEvaluator DEFAULT_PENALTY_FACTOR)
    (mkIndicatorBasedSelection 2) false DEFAULT_SUCCESS_THRESHOLD
    DEFAULT_INITIAL_SIGMA.

(** Four individuals told apart by their age. *)
Definition member (a : nat) (sel : bool) (r : nat) : CMAIndividual :=
  mkCMAIndividual [INR a] [0%R] [0%R] a r sel 0%R 1%R DEFAULT_SUCCESS_THRESHOLD.

(** A population as selection may leave it: parent 0 and offspring 1 are
    dropped, parent 1 and offspring 0 survive. *)
Definition after_selection : Population :=
  [member 10 false 1; member 11 true 0; member 12 true 0; member 13 false 1].

Definition initialized : MOCMA := set_m_pop after_selection configured.

End Toy.

(** ** Survivors *)

(** The individuals that selection has marked, in population order. *)
Definition survivors (pop : Population) : Population := List.filter IsSelected pop.

(** Everything before [first] is accepted by the predicate and everything
    from [last] on is rejected. *)
Definition partitioned (pred : CMAIndividual -> bool) (v : Population)
    (first last : nat) : Prop :=
  (forall i x, i < first -> v !! i = Some x -> pred x = true) /\
  (forall i x, last <= i -> v !! i = Some x -> pred x = false).

(** What [init(f, sp)] makes of one fresh individual: built with the
    configured sigma and threshold, placed where the objective proposed and
    evaluated there. *)
Definition started {W Objective : Type} (E : Collaborators W Objective)
    (f : Objective) (s : MOCMA) (ind : CMAIndividual) : Prop :=
  stepSize ind = m_initialSigma s /\
  targetSuccess ind = m_individualSuccessThreshold s /\
  exists w0 w1 w2 x result,
    proposeStartingPoint E f (replicate (numberOfVariables E f) 0%R) w0 = (x, w1) /\
    evaluate E (m_evaluator s) f x w1 = (result, w2) /\
    searchPoint ind = x /\
    penalizedFitness ind = PENALIZED_RESULT result /\
    unpenalizedFitness ind = UNPENALIZED_RESULT result.

(** ** Reading [step] phase by phase *)

(** The success test of the two notions: under the new update the offspring
    [o] is successful when selected; under the old one it must also rank no
    worse than its parent [p]. *)
Definition successful (useNewUpdate : bool) (o p : CMAIndividual) : bool :=
  if useNewUpdate then selected o else selected o && (rank o <=? rank p).

(** An offspring as the specification describes it: a copy of the parent,
    mutated, with age zero, evaluated, both fitness vectors stored. *)
Definition make_offspring {W Objective : Type} (E : Collaborators W Objective)
    (ev : PenalizingEvaluator) (f : Objective) (parent : CMAIndividual) (w : W)
    : CMAIndividual * W :=
  let '(mutated, w1) := mutate E parent w in
  let '(result, w2) := evaluate E ev f (searchPoint (set_age 0 mutated)) w1 in
  (set_unpenalizedFitness (UNPENALIZED_RESULT result)
     (set_penalizedFitness (PENALIZED_RESULT result) (set_age 0 mutated)), w2).

(** The world once offspring have been made, in order, from [parents]. *)
Definition world_after {W Objective : Type} (E : Collaborators W Objective)
    (ev : PenalizingEvaluator) (f : Objective) (parents : Population) (w : W) : W :=
  fold_left (fun w parent => snd (make_offspring E ev f parent w)) parents w.

(** What the specification promises of one selection call on a population
    [before]: the population keeps its size and exactly [m] individuals are
    marked. *)
Definition selection_marks (m : nat) (before after : Population) : Prop :=
  length after = length before /\ length (survivors after) = m.

(** A surviving individual after [age()++] and [update()], and the pair
    reported for it. *)
Definition survive {W Objective : Type} (E : Collaborators W Objective)
    (ind : CMAIndividual) : CMAIndividual :=
  update E (increment_age ind).

Definition report (ind : CMAIndividual) : ResultSet :=
  makeResultSet (searchPoint ind) (unpenalizedFitness ind).

(** ** The rest of the header *)

(** [name()] *)
Definition name : string := "MOCMA".

(** The default constructor, [MOCMA() { init(); }].  The vector member
    starts empty; the evaluator, the selection operator and the three
    scalar members hold whatever [before] holds when [init()] runs with the
    default arguments. *)
Definition MOCMA_new (before : MOCMA) : outcome MOCMA :=
  init DEFAULT_MU DEFAULT_PENALTY_FACTOR DEFAULT_SUCCESS_THRESHOLD
    DEFAULT_NOTION_OF_SUCCESS DEFAULT_INITIAL_SIGMA (set_m_pop [] before).

(** The configuration tree as [configure] reads it: [node.get<T>(key, d)]
    is the value of type [T] stored under [key], and [d] when the tree has
    none. *)
Record PropertyTree := mkPropertyTree {
  get_unsigned : string -> option nat;
  get_double : string -> option R;
  get_string : string -> option string
}.

(** [configure(node)] *)
Definition configure (node : PropertyTree) (s : MOCMA) : outcome MOCMA :=
  init (default DEFAULT_MU (get_unsigned node "Mu"))
       (default DEFAULT_PENALTY_FACTOR (get_double node "PenaltyFactor"))
       (default DEFAULT_SUCCESS_THRESHOLD (get_double node "SuccessThreshold"))
       (default DEFAULT_NOTION_OF_SUCCESS (get_string node "NotionOfSuccess"))
       (default DEFAULT_INITIAL_SIGMA (get_double node "InitialSigma"))
       s.

(** The two strings [init] recognises. *)
Definition recognised_notion (notionOfSuccess : string) : Prop :=
  notionOfSuccess = "IndividualBased"%string \/
  notionOfSuccess = "PopulationBased"%string.

(** An individual is in place for a partition point [k] when it is selected
    and sits below [k], or is not selected and sits at [k] or above. *)
Definition in_place (k i : nat) (x : CMAIndividual) : Prop :=
  if selected x then i < k else k <= i.

(** The same individual, or that individual with one more success. *)
Definition credited_at_most_once (x x' : CMAIndividual) : Prop :=
  x' = x \/ x' = credit_success x.

(** ** Indicator-based selection, from the specification *)

(** Comparisons of two doubles read as reals. *)
Definition Rleb (x y : R) : bool := if Rle_dec x y then true else false.
Definition Rltb (x y : R) : bool := if Rlt_dec x y then true else false.

(** Modelled from the spec: Pareto dominance (glossary) - [a] dominates [b]
    when it is no worse in every objective and strictly better in at least
    one.  Objectives are minimised, so no worse is [<=]; vectors of
    different lengths do not dominate each other. *)
Fixpoint no_worse (a b : RealVector) : bool :=
  match a, b with
  | [], [] => true
  | x :: a', y :: b' => Rleb x y && no_worse a' b'
  | _, _ => false
  end.

Fixpoint better_somewhere (a b : RealVector) : bool :=
  match a, b with
  | x :: a', y :: b' => Rltb x y || better_somewhere a' b'
  | _, _ => false
  end.

Definition dominates (a b : RealVector) : bool :=
  no_worse a b && better_somewhere a b.

(** The penalized fitness of the individual at position [i]. *)
Definition fitness_at (pop : Population) (i : nat) : RealVector :=
  default [] (penalizedFitness <$> pop !! i).

(** Position [i] is dominated by one of the positions in [members]. *)
Definition dominated_in (pop : Population) (members : list nat) (i : nat) : Prop :=
  Exists (fun j => dominates (fitness_at pop j) (fitness_at pop i) = true) members.

#[global] Instance dominated_in_dec pop members i : Decision (dominated_in pop members i) :=
  Exists_dec (fun j => dominates (fitness_at pop j) (fitness_at pop i) = true) members.

(** Modelled from the spec: step 1 of section 4.4 (IndicatorBasedSelection.h
    is not part of the sources).  The positions still to be ranked are split
    into those no other one dominates - the next front - and the rest, which
    is sorted on; the fuel is the number of positions. *)
Fixpoint fronts (fuel : nat) (pop : Population) (members : list nat) : list (list nat) :=
  match fuel with
  | 0 => []
  | S fuel' =>
      match members with
      | [] => []
      | _ :: _ =>
          filter (fun i => ~ dominated_in pop members i) members
            :: fronts fuel' pop (filter (dominated_in pop members) members)
      end
  end.

(** The front index of position [i]. *)
Fixpoint rank_of (fs : list (list nat)) (i : nat) : nat :=
  match fs with
  | [] => 0
  | front :: rest => if bool_decide (i ∈ front) then 0 else S (rank_of rest i)
  end.

(** Selection writes the rank and the flag of an individual. *)
Definition mark (r : nat) (sel : bool) (ind : CMAIndividual) : CMAIndividual :=
  mkCMAIndividual (searchPoint ind) (penalizedFitness ind) (unpenalizedFitness ind)
    (age ind) r sel (noSuccessfulOffspring ind) (stepSize ind) (targetSuccess ind).

Section SelectionModel.
Context {W : Type}.

(** The indicator the selection is instantiated with: on the fitness
    vectors of a front, the position of its least contributor.  An
    approximating indicator samples, so the world is passed through. *)
Variable leastContributor : list RealVector -> W -> nat * W.

(** Modelled from the spec: step 3 of section 4.4 - remove the least
    contributor of the critical front, [n] times over. *)
Fixpoint prune (n : nat) (pop : Population) (front : list nat) (w : W) : list nat * W :=
  match n with
  | 0 => (front, w)
  | S n' =>
      let '(k, w') := leastContributor (fitness_at pop <$> front) w in
      prune n' pop (delete k front) w'
  end.

(** Modelled from the spec: steps 2 to 4 of section 4.4 - the positions
    that survive when [slots] places are left.  Whole fronts are taken
    while they fit; the first front that does not fit is pruned to the
    places left; later fronts are left out.  With no place left nothing is
    asked of the indicator. *)
Fixpoint choose (slots : nat) (pop : Population) (fs : list (list nat)) (w : W)
    : list nat * W :=
  match fs with
  | [] => ([], w)
  | front :: rest =>
      if slots =? 0 then ([], w)
      else if length front <=? slots then
        let '(more, w') := choose (slots - length front) pop rest w in
        (front ++ more, w')
      else prune (length front - slots) pop front w
  end.

(** Modelled from the spec: [IndicatorBasedSelection::operator()] (section
    4.4; the class is not part of the sources).  Every individual gets its
    front index as rank and is flagged when its position was chosen. *)
Definition indicator_based_selection (sel : IndicatorBasedSelection) (pop : Population)
    (w : W) : Population * W :=
  let positions := seq 0 (length pop) in
  let fs := fronts (length pop) pop positions in
  let '(chosen, w') := choose (m_mu sel) pop fs w in
  (zip_with (fun i ind => mark (rank_of fs i) (bool_decide (i ∈ chosen)) ind)
     positions pop,
   w').

(** The collaborators [E] with the selection operator and [update()]
    replaced by their models from the specification. *)
Definition with_models {Objective : Type} (E : Collaborators W Objective)
    (learningRate stepSizeFloor : R) (observedRate : R -> R)
    : Collaborators W Objective :=
  mkCollaborators W Objective (mutate E)
    (update_step_size learningRate stepSizeFloor observedRate)
    (evaluate E) indicator_based_selection
    (numberOfObjectives E) (numberOfVariables E) (proposeStartingPoint E).

End SelectionModel.

(** What the specification asks of an indicator: the least contributor of
    a front of two or more is one of its positions. *)
Definition indicator_in_range {W : Type}
    (leastContributor : list RealVector -> W -> nat * W) : Prop :=
  forall front w, 2 <= length front -> fst (leastContributor front w) < length front.

(** * Properties *)

(** ** [std::partition] *)

Lemma scan_forward_spec pred (v : Population) n first :
  first + n <= length v ->
  let r := scan_forward pred v n first in
  first <= r <= first + n /\
  (forall i x, first <= i < r -> v !! i = Some x -> pred x = true) /\
  (r < first + n -> exists x, v !! r = Some x /\ pred x = false).
Proof.
  revert first. induction n as [|n IH]; intros first Hlen; simpl.
  - split; [lia|]. split; [intros; lia | lia].
  - destruct (v !! first) as [x|] eqn:Hx.
    + destruct (pred x) eqn:Hp.
      * destruct (IH (S first)) as (Hr & Hall & Hstop); [lia|].
        split; [lia|]. split.
        -- intros i y Hi Hy. destruct (decide (i = first)) as [->|Hne].
           ++ congruence.
           ++ apply (Hall i y); [lia | done].
        -- intros Hlt. apply Hstop. lia.
      * split; [lia|]. split; [intros; lia | eauto].
    + apply lookup_ge_None in Hx. lia.
Qed.

Lemma scan_backward_spec pred (v : Population) n last :
  n <= last -> last < length v ->
  let r := scan_backward pred v n last in
  last - n <= r <= last /\
  (forall i x, r < i <= last -> v !! i = Some x -> pred x = false) /\
  (last - n < r -> exists x, v !! r = Some x /\ pred x = true).
Proof.
  revert last. induction n as [|n IH]; intros last Hn Hlen; simpl.
  - split; [lia|]. split; [intros; lia | lia].
  - destruct (v !! last) as [x|] eqn:Hx.
    + destruct (pred x) eqn:Hp.
      * split; [lia|]. split; [intros; lia | eauto].
      * destruct (IH (last - 1)) as (Hr & Hall & Hstop); [lia | lia |].
        split; [lia|]. split.
        -- intros i y Hi Hy. destruct (decide (i = last)) as [->|Hne].
           ++ congruence.
           ++ apply (Hall i y); [lia | done].
        -- intros Hlt. apply Hstop. lia.
    + apply lookup_ge_None in Hx. lia.
Qed.

Lemma iter_swap_perm (v : Population) i j a b :
  v !! i = Some a -> v !! j = Some b -> iter_swap v i j ≡ₚ v.
Proof.
  intros Hi Hj. unfold iter_swap. rewrite Hi, Hj.
  by apply Permutation_insert_swap.
Qed.

Lemma iter_swap_lookup (v : Population) i j a b k :
  v !! i = Some a -> v !! j = Some b -> i <> j ->
  iter_swap v i j !! k =
    if decide (k = i) then Some b else if decide (k = j) then Some a else v !! k.
Proof.
  intros Hi Hj Hne. unfold iter_swap. rewrite Hi, Hj.
  pose proof (lookup_lt_Some _ _ _ Hi). pose proof (lookup_lt_Some _ _ _ Hj).
  destruct (decide (k = i)) as [->|Hki].
  - rewrite list_lookup_insert_ne by done.
    by rewrite list_lookup_insert_eq.
  - destruct (decide (k = j)) as [->|Hkj].
    + rewrite list_lookup_insert_eq; [done|]. by rewrite length_insert.
    + rewrite !list_lookup_insert_ne; done.
Qed.

Lemma partition_loop_spec fuel pred (v : Population) first last :
  first <= last <= length v ->
  last - first < fuel ->
  partitioned pred v first last ->
  exists v' k, partition_loop fuel pred v first last = Some (v', k) /\
    v' ≡ₚ v /\ first <= k <= last /\ partitioned pred v' k k.
Proof.
  revert v first last. induction fuel as [|fuel IH]; intros v first last Hb Hf [Hlo Hhi];
    [lia|]. simpl.
  destruct (scan_forward_spec pred v (last - first) first) as (Hr1 & Hall1 & Hstop1);
    [lia|].
  set (r1 := scan_forward pred v (last - first) first) in *.
  assert (Hacc : forall i x, i < r1 -> v !! i = Some x -> pred x = true).
  { intros i x Hi Hx. destruct (decide (i < first)); [eauto|].
    apply (Hall1 i x); [lia | done]. }
  destruct (Nat.eqb_spec r1 last) as [Heq|Hne].
  { exists v, r1. split; [done|]. split; [done|]. split; [lia|].
    split; [done|]. intros i x Hi. apply Hhi. lia. }
  destruct Hstop1 as (a & Ha & Hpa); [lia|].
  destruct (scan_backward_spec pred v (last - 1 - r1) (last - 1)) as (Hr2 & Hall2 & Hstop2);
    [lia | lia |].
  set (r2 := scan_backward pred v (last - 1 - r1) (last - 1)) in *.
  assert (Hrej : forall i x, r2 < i -> v !! i = Some x -> pred x = false).
  { intros i x Hi Hx. destruct (decide (last <= i)); [eauto|].
    apply (Hall2 i x); [lia | done]. }
  destruct (Nat.eqb_spec r1 r2) as [Heq|Hne2].
  { exists v, r1. split; [done|]. split; [done|]. split; [lia|].
    split; [done|]. intros i x Hi Hx.
    destruct (decide (i = r1)) as [->|]; [congruence|].
    apply (Hrej i x); [lia | done]. }
  destruct Hstop2 as (b & Hb2 & Hpb); [lia|].
  destruct (IH (iter_swap v r1 r2) (S r1) r2) as (v' & k & Hrun & Hperm & Hk & Hpart).
  - rewrite (Permutation_length (iter_swap_perm v r1 r2 a b Ha Hb2)). lia.
  - lia.
  - split; intros i x Hi; rewrite (iter_swap_lookup v r1 r2 a b) by done;
      repeat case_decide; subst; try lia; intros Hx; simplify_eq; eauto.
    + apply (Hacc i x); [lia | done].
    + apply (Hrej i x); [lia | done].
  - exists v', k. split; [done|]. split; [|split; [lia | done]].
    rewrite Hperm. by eapply iter_swap_perm.
Qed.

Lemma std_partition_spec pred (v : Population) :
  exists v' k, std_partition pred v = Some (v', k) /\
    v' ≡ₚ v /\ k <= length v /\ partitioned pred v' k k.
Proof.
  destruct (partition_loop_spec (S (length v)) pred v 0 (length v))
    as (v' & k & Hrun & Hperm & Hk & Hpart).
  - lia.
  - lia.
  - split; [intros; lia|]. intros i x Hi Hx.
    apply lookup_lt_Some in Hx. lia.
  - exists v', k. repeat split; try done; try apply Hpart. lia.
Qed.

Lemma partitioned_Forall pred (v : Population) k :
  partitioned pred v k k ->
  Forall (fun x => pred x = true) (take k v) /\
  Forall (fun x => pred x = false) (drop k v).
Proof.
  intros [Hlo Hhi]. split; apply Forall_lookup; intros i x Hx.
  - apply lookup_take_Some in Hx as [Hx Hi]. eauto.
  - rewrite lookup_drop in Hx. apply (Hhi (k + i) x); [lia | done].
Qed.

Lemma filter_all_true (pred : CMAIndividual -> bool) (l : Population) :
  Forall (fun x => pred x = true) l -> List.filter pred l = l.
Proof.
  induction 1 as [|x l Hx _ IH]; simpl; [done|]. by rewrite Hx, IH.
Qed.

Lemma filter_all_false (pred : CMAIndividual -> bool) (l : Population) :
  Forall (fun x => pred x = false) l -> List.filter pred l = [].
Proof.
  induction 1 as [|x l Hx _ IH]; simpl; [done|]. by rewrite Hx, IH.
Qed.

Lemma filter_Permutation (pred : CMAIndividual -> bool) (l l' : Population) :
  l ≡ₚ l' -> List.filter pred l ≡ₚ List.filter pred l'.
Proof.
  induction 1 as [|x l l' _ IH|x y l|l l' l'' _ IH1 _ IH2]; simpl.
  - done.
  - destruct (pred x); [by f_equiv | done].
  - destruct (pred x), (pred y); try done. apply Permutation_swap.
  - by etrans.
Qed.

(** After the partition the accepted elements are exactly the first [k]
    ones, and [k] is their number in the input. *)
Lemma std_partition_survivors pred (v : Population) :
  exists v' k, std_partition pred v = Some (v', k) /\
    v' ≡ₚ v /\ k = length (List.filter pred v) /\
    List.filter pred v' = take k v' /\
    Forall (fun x => pred x = true) (take k v') /\
    Forall (fun x => pred x = false) (drop k v').
Proof.
  destruct (std_partition_spec pred v) as (v' & k & Hrun & Hperm & Hk & Hpart).
  destruct (partitioned_Forall pred v' k Hpart) as [Ht Hd].
  assert (Hfil : List.filter pred v' = take k v').
  { rewrite <- (take_drop k v') at 1. rewrite List.filter_app.
    rewrite (filter_all_true _ _ Ht), (filter_all_false _ _ Hd).
    apply app_nil_r. }
  exists v', k. repeat split; try done.
  rewrite <- (Permutation_length (filter_Permutation pred _ _ Hperm)), Hfil.
  rewrite length_take, (Permutation_length Hperm). lia.
Qed.

(** C1 (as the code has it).  [std::partition] always returns; the
    population afterwards is a rearrangement of the one before, the selected
    individuals fill the positions below their number (below [mu] when
    selection marked [mu] of them) and the others follow.  Nothing is said
    on the order inside either group. *)
Theorem step_partition_groups_survivors (pop : Population) :
  exists pop', step_partition pop = Some pop' /\
    pop' ≡ₚ pop /\
    take (length (survivors pop)) pop' ≡ₚ survivors pop /\
    Forall (fun x => selected x = true) (take (length (survivors pop)) pop') /\
    Forall (fun x => selected x = false) (drop (length (survivors pop)) pop').
Proof.
  destruct (std_partition_survivors IsSelected pop)
    as (pop' & k & Hrun & Hperm & Hk & Hfil & Ht & Hd).
  exists pop'. unfold step_partition, survivors. rewrite Hrun, <- Hk. simpl.
  repeat split; try done.
  rewrite <- Hfil. by apply filter_Permutation.
Qed.

(** C1 (as the specification words it) fails: the two survivors of
    [Toy.after_selection] come out of the partition in the opposite order,
    and a whole [step] hands them back in that order. *)
Lemma step_partition_not_stable :
  step_partition Toy.after_selection =
    Some [Toy.member 12 true 0; Toy.member 11 true 0;
          Toy.member 10 false 1; Toy.member 13 false 1] /\
  survivors Toy.after_selection = [Toy.member 11 true 0; Toy.member 12 true 0] /\
  survivors [Toy.member 12 true 0; Toy.member 11 true 0;
             Toy.member 10 false 1; Toy.member 13 false 1]
    = [Toy.member 12 true 0; Toy.member 11 true 0] /\
  [Toy.member 11 true 0; Toy.member 12 true 0]
    <> [Toy.member 12 true 0; Toy.member 11 true 0] /\
  option_map (fun pop => List.map age (survivors pop))
    (before_partition Toy.env tt Toy.initialized 0) = Some [11; 0] /\
  option_map (fun r => List.map age (take 2 (m_pop (snd (fst r)))))
    (step Toy.env tt Toy.initialized 0) = Some [1; 12].
Proof.
  repeat split; try reflexivity.
  intros H. apply (f_equal (List.map age)) in H. discriminate H.
Qed.

(** ** Configuration: [init(mu, penaltyFactor, successThreshold, notionOfSuccess, initialSigma)] *)

Lemma init_returns mu pf thr notion sigma s :
  exists b,
    init mu pf thr notion sigma s =
      Returned (mkMOCMA (m_pop s) (mkPenalizingEvaluator pf)
                  (mkIndicatorBasedSelection mu) b thr sigma) /\
    b = (if String.eqb notion "IndividualBased" then false
         else if String.eqb notion "PopulationBased" then true
         else m_useNewUpdate s).
Proof.
  unfold init.
  destruct (String.eqb notion "IndividualBased");
    [|destruct (String.eqb notion "PopulationBased")]; eexists; split; reflexivity.
Qed.

(** C7 (as the specification words it) fails: a parent count of zero and a
    notion of success that is neither recognised string are both invalid,
    and [init] returns normally on each of them. *)
Lemma init_accepts_invalid_configuration :
  invalid_configuration 0 "IndividualBased" /\
  init 0 DEFAULT_PENALTY_FACTOR DEFAULT_SUCCESS_THRESHOLD "IndividualBased"
       DEFAULT_INITIAL_SIGMA Toy.configured
    = Returned (mkMOCMA [] (mkPenalizingEvaluator DEFAULT_PENALTY_FACTOR)
                  (mkIndicatorBasedSelection 0) false DEFAULT_SUCCESS_THRESHOLD
                  DEFAULT_INITIAL_SIGMA) /\
  invalid_configuration 100 "Bogus" /\
  init 100 DEFAULT_PENALTY_FACTOR DEFAULT_SUCCESS_THRESHOLD "Bogus"
       DEFAULT_INITIAL_SIGMA Toy.configured
    = Returned (mkMOCMA [] (mkPenalizingEvaluator DEFAULT_PENALTY_FACTOR)
                  (mkIndicatorBasedSelection 100) false DEFAULT_SUCCESS_THRESHOLD
                  DEFAULT_INITIAL_SIGMA).
Proof.
  split; [by left|]. split; [reflexivity|]. split; [|reflexivity].
  right. split; discriminate.
Qed.

(** C7 (as the code has it).  [init] validates nothing: on every input,
    a zero [mu] and an unrecognised notion of success included, it returns
    normally with [mu], the penalty factor, the success threshold and the
    initial sigma stored as given and the population untouched. *)
Theorem init_never_rejects mu pf thr notion sigma s :
  exists s', init mu pf thr notion sigma s = Returned s' /\
    m_mu (m_selection s') = mu /\
    m_penaltyFactor (m_evaluator s') = pf /\
    m_individualSuccessThreshold s' = thr /\
    m_initialSigma s' = sigma /\
    m_pop s' = m_pop s.
Proof.
  destruct (init_returns mu pf thr notion sigma s) as (b & -> & _).
  eexists. split; [reflexivity|]. repeat split.
Qed.

(** C9.  A notion of success that equals neither ["IndividualBased"] nor
    ["PopulationBased"] leaves [m_useNewUpdate] as it was; [init] still
    returns normally and still assigns [mu], the penalty factor, the success
    threshold and the initial sigma from its arguments. *)
Theorem init_unknown_notion_keeps_flag mu pf thr notion sigma s :
  notion <> "IndividualBased"%string ->
  notion <> "PopulationBased"%string ->
  exists s', init mu pf thr notion sigma s = Returned s' /\
    m_useNewUpdate s' = m_useNewUpdate s /\
    m_mu (m_selection s') = mu /\
    m_penaltyFactor (m_evaluator s') = pf /\
    m_individualSuccessThreshold s' = thr /\
    m_initialSigma s' = sigma.
Proof.
  intros H1 H2. destruct (init_returns mu pf thr notion sigma s) as (b & -> & Hb).
  apply String.eqb_neq in H1, H2. rewrite H1, H2 in Hb. subst b.
  eexists. split; [reflexivity|]. repeat split.
Qed.

Lemma init_unknown_notion_keeps_flag_witness :
  exists s', init 7 2 3 "Bogus" 4 (set_m_useNewUpdate true Toy.configured) = Returned s' /\
    m_useNewUpdate s' = true /\
    m_mu (m_selection s') = 7 /\
    m_penaltyFactor (m_evaluator s') = 2%R /\
    m_individualSuccessThreshold s' = 3%R /\
    m_initialSigma s' = 4%R.
Proof.
  apply (init_unknown_notion_keeps_flag 7 2 3 "Bogus" 4
           (set_m_useNewUpdate true Toy.configured)); discriminate.
Defined.

(** ** [serialize] *)

(** C10.  Storing one optimizer and loading into another carries over the
    population, the evaluator, the selection operator and [m_useNewUpdate],
    and nothing else: the success threshold and the initial sigma of the
    loading object stay as they were, so the loaded object need not equal
    the stored one. *)
Theorem serialize_drops_threshold_and_sigma :
  (forall src dst, exists dst',
     serialize_load dst (serialize_save src []) = Some (dst', []) /\
     m_pop dst' = m_pop src /\
     m_evaluator dst' = m_evaluator src /\
     m_selection dst' = m_selection src /\
     m_useNewUpdate dst' = m_useNewUpdate src /\
     m_individualSuccessThreshold dst' = m_individualSuccessThreshold dst /\
     m_initialSigma dst' = m_initialSigma dst) /\
  (exists src dst dst',
     serialize_load dst (serialize_save src []) = Some (dst', []) /\
     dst' <> src).
Proof.
  split.
  - intros src dst. eexists. split; [reflexivity|]. repeat split.
  - exists Toy.configured, (set_m_initialSigma 2 Toy.configured).
    eexists. split; [reflexivity|].
    intros H. apply (f_equal m_initialSigma) in H. simpl in H.
    unfold DEFAULT_INITIAL_SIGMA in H. lra.
Qed.

(** ** [init(f, sp)] *)

Section InitObjective.
Context {W Objective : Type} (E : Collaborators W Objective).

Lemma init_body_appends f s pop w :
  exists ind w', init_body E f s (numberOfVariables E f) (numberOfObjectives E f)
                   (pop, w) = (pop ++ [ind], w') /\
    started E f s ind.
Proof.
  unfold init_body. simpl.
  destruct (proposeStartingPoint E f
              (replicate (numberOfVariables E f) 0%R) w) as [x w1] eqn:Hx.
  simpl. destruct (evaluate E (m_evaluator s) f x w1) as [result w2] eqn:Hr.
  eexists _, _. split; [reflexivity|].
  split; [done|]. split; [done|]. exists w, w1, w2, x, result. done.
Qed.

Lemma init_loop_appends n f s pop w :
  exists new, fst (init_loop E n f s (numberOfVariables E f)
                     (numberOfObjectives E f) (pop, w)) = pop ++ new /\
    length new = n /\ Forall (started E f s) new.
Proof.
  revert pop w. induction n as [|n IH]; intros pop w; cbn [init_loop].
  - exists []. simpl. by rewrite app_nil_r.
  - destruct (init_body_appends f s pop w) as (ind & w' & -> & Hind).
    destruct (IH (pop ++ [ind]) w') as (new & Heq & Hlen & Hall).
    exists (ind :: new). rewrite Heq, <- app_assoc. split; [done|].
    split; [simpl; lia|]. by constructor.
Qed.

(** The part of C6 that holds, for any [sp]: [init(f, sp)] appends exactly
    [2 * mu] individuals, each built with the configured sigma and
    threshold, placed at a point the objective proposed and evaluated
    there. *)
Lemma init_objective_population f sp s w :
  exists new, m_pop (fst (init_objective E f sp s w)) = m_pop s ++ new /\
    length new = 2 * mu s /\ Forall (started E f s) new.
Proof.
  unfold init_objective.
  destruct (init_loop_appends (2 * mu s) f s (m_pop s) w) as (new & Heq & Hlen & Hall).
  destruct (init_loop E (2 * mu s) f s _ _ (m_pop s, w)) as [pop w'].
  simpl in *. eauto.
Qed.

Lemma init_objective_any_starting_point f sp sp' s w :
  init_objective E f sp s w = init_objective E f sp' s w.
Proof. reflexivity. Qed.

End InitObjective.

(** C6, at the input where the code departs from it.  A starting point
    [[5]] is supplied; the four individuals sit at the points the objective
    proposed, none of them at [[5]], and the outcome is the one of a call
    without starting point. *)
Theorem init_objective_ignores_starting_point :
  List.map searchPoint (m_pop (fst (init_objective Toy.env tt [5%R] Toy.configured 0)))
    = [[INR 0]; [INR 2]; [INR 4]; [INR 6]] /\
  Forall (fun ind => searchPoint ind <> [5%R])
    (m_pop (fst (init_objective Toy.env tt [5%R] Toy.configured 0))) /\
  init_objective Toy.env tt [5%R] Toy.configured 0
    = init_objective Toy.env tt [] Toy.configured 0.
Proof.
  split; [reflexivity|]. split; [|reflexivity].
  repeat constructor; simpl; intros H; injection H; lra.
Qed.

(** ** Step-size adaptation *)

Section StepSizePositive.
Variables (learningRate stepSizeFloor : R) (observedRate : R -> R).

Lemma apply_op_positive ind op :
  (0 < stepSize ind)%R ->
  (0 < stepSize (apply_op learningRate stepSizeFloor observedRate ind op))%R.
Proof.
  intros Hpos. destruct op; simpl; try done.
  eapply Rlt_le_trans; [|apply Rmax_r].
  apply Rmult_lt_0_compat; [done | apply exp_pos].
Qed.

(** C8.  Starting from a positive step size, any finite sequence of the
    operations on an individual - success-count accumulations of any
    size and [update()] calls among them - leaves the step size
    positive. *)
Theorem stepSize_stays_positive ops ind :
  (0 < stepSize ind)%R ->
  (0 < stepSize (apply_ops learningRate stepSizeFloor observedRate ops ind))%R.
Proof.
  unfold apply_ops. revert ind.
  induction ops as [|op ops IH]; intros ind Hpos; simpl; [done|].
  apply IH. by apply apply_op_positive.
Qed.

End StepSizePositive.

Lemma stepSize_stays_positive_witness :
  (0 < stepSize (apply_ops 1 0 (fun c => c)
                   [OpAccumulate 3; OpUpdate; OpAccumulate (-7); OpUpdate; OpUpdate]
                   (Toy.member 1 true 0)))%R.
Proof.
  apply (stepSize_stays_positive 1 0 (fun c => c)
           [OpAccumulate 3; OpUpdate; OpAccumulate (-7); OpUpdate; OpUpdate]
           (Toy.member 1 true 0)).
  simpl. lra.
Defined.

(** ** Loops of [step] *)

Lemma for_each_app {St : Type} (body : nat -> St -> option St) l1 l2 st :
  for_each body (l1 ++ l2) st =
    match for_each body l1 st with
    | Some st' => for_each body l2 st'
    | None => None
    end.
Proof.
  revert st. induction l1 as [|i l1 IH]; intros st; simpl; [done|].
  destruct (body i st); [apply IH | done].
Qed.

Lemma for_each_ext {St : Type} (body body' : nat -> St -> option St) l st :
  (forall i st, body i st = body' i st) ->
  for_each body l st = for_each body' l st.
Proof.
  intros Hext. revert st. induction l as [|i l IH]; intros st; simpl; [done|].
  rewrite Hext. destruct (body' i st); [apply IH | done].
Qed.

Lemma for_each_seq_S {St : Type} (body : nat -> St -> option St) k st :
  for_each body (seq 0 (S k)) st =
    match for_each body (seq 0 k) st with
    | Some st' => body k st'
    | None => None
    end.
Proof.
  rewrite seq_S, for_each_app. simpl.
  destruct (for_each body (seq 0 k) st) as [st'|]; [|done].
  by destruct (body k st').
Qed.

Lemma write_Some (pop : Population) i x :
  i < length pop -> write pop i x = Some (<[i:=x]> pop).
Proof. intros Hi. unfold write. by rewrite decide_True. Qed.

(** *** The success loop *)

Lemma credit_pair_spec m i (pop : Population) o p :
  i < m -> pop !! i = Some p -> pop !! (m + i) = Some o ->
  credit_pair m i pop =
    Some (<[i:=credit_success p]> (<[m + i:=credit_success o]> pop)).
Proof.
  intros Hi Hp Ho. unfold credit_pair, read. rewrite Ho. simpl.
  rewrite write_Some by (by eapply lookup_lt_Some). simpl.
  rewrite list_lookup_insert_ne by lia. rewrite Hp. simpl.
  apply write_Some. rewrite length_insert. by eapply lookup_lt_Some.
Qed.

Lemma success_body_spec (useNew : bool) m i (pop : Population) o p :
  i < m -> pop !! i = Some p -> pop !! (m + i) = Some o ->
  (if useNew then success_new m i pop else success_old m i pop) =
    Some (if successful useNew o p
          then <[i:=credit_success p]> (<[m + i:=credit_success o]> pop)
          else pop).
Proof.
  intros Hi Hp Ho. unfold success_new, success_old, successful, read.
  rewrite Ho. simpl.
  destruct useNew, (selected o); simpl; try done.
  - by apply credit_pair_spec.
  - rewrite Hp. simpl. destruct (rank o <=? rank p); [|done].
    by apply credit_pair_spec.
Qed.

(** The population after the pairs [0 .. k-1] have been looked at. *)
Lemma success_loop_spec (useNew : bool) m k (pop : Population) :
  k <= m -> 2 * m <= length pop ->
  exists pop',
    for_each (fun i pop => if useNew then success_new m i pop else success_old m i pop)
      (seq 0 k) pop = Some pop' /\
    Forall2 (fun x x' => x' = x \/ x' = credit_success x) pop pop' /\
    (forall i p o, i < k -> pop !! i = Some p -> pop !! (m + i) = Some o ->
       pop' !! i = Some (if successful useNew o p then credit_success p else p) /\
       pop' !! (m + i) = Some (if successful useNew o p then credit_success o else o)) /\
    (forall j, k <= j < m \/ m + k <= j -> pop' !! j = pop !! j).
Proof.
  intros Hk Hlen. induction k as [|k IH].
  - exists pop. split; [done|]. split; [|split; [intros; lia | done]].
    apply Forall_Forall2_diag, Forall_forall. auto.
  - destruct IH as (pop1 & Hrun & Hrel & Hdone & Hrest); [lia|].
    rewrite for_each_seq_S, Hrun.
    destruct (lookup_lt_is_Some_2 pop k) as [p Hp]; [lia|].
    destruct (lookup_lt_is_Some_2 pop (m + k)) as [o Ho]; [lia|].
    assert (Hp1 : pop1 !! k = Some p) by (rewrite Hrest; [done | lia]).
    assert (Ho1 : pop1 !! (m + k) = Some o) by (rewrite Hrest; [done | lia]).
    rewrite (success_body_spec useNew m k pop1 o p) by (done || lia).
    destruct (successful useNew o p) eqn:Hs.
    + eexists. split; [done|]. split; [|split].
      * rewrite <- (list_insert_id pop k p Hp).
        apply Forall2_insert; [|by right].
        rewrite <- (list_insert_id pop (m + k) o Ho).
        apply Forall2_insert; [done | by right].
      * intros i p' o' Hi Hp' Ho'. destruct (decide (i = k)) as [->|Hne].
        -- simplify_eq. rewrite Hs. split.
           ++ apply list_lookup_insert_eq. rewrite length_insert.
              by eapply lookup_lt_Some.
           ++ rewrite list_lookup_insert_ne by lia.
              apply list_lookup_insert_eq. by eapply lookup_lt_Some.
        -- rewrite !list_lookup_insert_ne by lia. apply Hdone; [lia | done | done].
      * intros j Hj. rewrite !list_lookup_insert_ne by lia. apply Hrest. lia.
    + exists pop1. split; [done|]. split; [done|]. split.
      * intros i p' o' Hi Hp' Ho'. destruct (decide (i = k)) as [->|Hne].
        -- simplify_eq. by rewrite Hs.
        -- apply Hdone; [lia | done | done].
      * intros j Hj. apply Hrest. lia.
Qed.





(** *** The offspring loop *)

Section OffspringLoop.
Context {W Objective : Type} (E : Collaborators W Objective).

Lemma offspring_body_spec f s i (pop : Population) w parent :
  pop !! i = Some parent -> mu s + i < length pop ->
  offspring_body E f s i (pop, w) =
    Some (<[mu s + i := fst (make_offspring E (m_evaluator s) f parent w)]> pop,
          snd (make_offspring E (m_evaluator s) f parent w)).
Proof.
  intros Hp Hi. unfold offspring_body, make_offspring, read.
  rewrite Hp. simpl. rewrite write_Some by done. simpl.
  rewrite list_lookup_insert_eq by done. simpl.
  destruct (mutate E parent w) as [mutated w1]. simpl.
  destruct (evaluate E (m_evaluator s) f (searchPoint mutated) w1)
    as [result w2]. simpl.
  rewrite write_Some by (by rewrite length_insert). simpl.
  by rewrite list_insert_insert_eq.
Qed.

(** The state after offspring [0 .. k-1] have been generated. *)
Lemma offspring_loop_spec f s k (pop : Population) w :
  k <= mu s -> 2 * mu s <= length pop ->
  exists pop',
    for_each (offspring_body E f s) (seq 0 k) (pop, w) =
      Some (pop', world_after E (m_evaluator s) f (take k pop) w) /\
    length pop' = length pop /\
    (forall i parent, i < k -> pop !! i = Some parent ->
       pop' !! (mu s + i) =
         Some (fst (make_offspring E (m_evaluator s) f parent
                      (world_after E (m_evaluator s) f (take i pop) w)))) /\
    (forall j, j < mu s \/ mu s + k <= j -> pop' !! j = pop !! j).
Proof.
  intros Hk Hlen. induction k as [|k IH].
  - exists pop. split; [done|]. split; [done|]. split; [intros; lia | done].
  - destruct IH as (pop1 & Hrun & Hlen1 & Hdone & Hrest); [lia|].
    rewrite for_each_seq_S, Hrun.
    destruct (lookup_lt_is_Some_2 pop k) as [parent Hp]; [lia|].
    assert (Hp1 : pop1 !! k = Some parent) by (rewrite Hrest; [done | lia]).
    rewrite (offspring_body_spec f s k pop1 _ parent Hp1) by lia.
    eexists. split.
    { f_equal. f_equal. rewrite (take_S_r pop k parent Hp).
      unfold world_after. by rewrite fold_left_app. }
    split; [by rewrite length_insert|]. split.
    + intros i parent' Hi Hp'. destruct (decide (i = k)) as [->|Hne].
      * simplify_eq. apply list_lookup_insert_eq. lia.
      * rewrite list_lookup_insert_ne by lia. apply Hdone; [lia | done].
    + intros j Hj. rewrite list_lookup_insert_ne by lia. apply Hrest. lia.
Qed.

Lemma make_offspring_fields ev f parent w :
  exists mutated w1 result w2,
    mutate E parent w = (mutated, w1) /\
    evaluate E ev f (searchPoint mutated) w1 = (result, w2) /\
    make_offspring E ev f parent w =
      (set_unpenalizedFitness (UNPENALIZED_RESULT result)
         (set_penalizedFitness (PENALIZED_RESULT result) (set_age 0 mutated)), w2).
Proof.
  unfold make_offspring. destruct (mutate E parent w) as [mutated w1]. simpl.
  destruct (evaluate E ev f (searchPoint mutated) w1) as [result w2] eqn:He.
  by exists mutated, w1, result, w2.
Qed.

(** C4.  On a population of [2 * mu] individuals the offspring loop
    returns; selection and the rest of [step] then run on its outcome.
    For every [i < mu], slot [mu + i] holds the copy of parent [i] after
    [mutate()] (run in the world left by the offspring before it), with
    age 0 and with the penalized and unpenalized results of evaluating its
    search point stored; the parents themselves are as before. *)
Theorem step_offspring_fills_slots f s w :
  length (m_pop s) = 2 * mu s ->
  exists pop1 w1,
    step_offspring E f s w = Some (pop1, w1) /\
    step E f s w = after_offspring E s (pop1, w1) /\
    length pop1 = 2 * mu s /\
    w1 = world_after E (m_evaluator s) f (take (mu s) (m_pop s)) w /\
    forall i parent, i < mu s -> m_pop s !! i = Some parent ->
      pop1 !! i = Some parent /\
      exists mutated wm result we,
        mutate E parent (world_after E (m_evaluator s) f (take i (m_pop s)) w)
          = (mutated, wm) /\
        evaluate E (m_evaluator s) f (searchPoint mutated) wm = (result, we) /\
        pop1 !! (mu s + i) =
          Some (mkCMAIndividual (searchPoint mutated) (PENALIZED_RESULT result)
                  (UNPENALIZED_RESULT result) 0 (rank mutated) (selected mutated)
                  (noSuccessfulOffspring mutated) (stepSize mutated)
                  (targetSuccess mutated)).
Proof.
  intros Hlen.
  destruct (offspring_loop_spec f s (mu s) (m_pop s) w)
    as (pop1 & Hrun & Hlen1 & Hdone & Hrest); [lia | lia |].
  eexists pop1, _. split; [exact Hrun|]. split.
  { unfold step. unfold step_offspring in *. by rewrite Hrun. }
  split; [lia|]. split; [done|].
  intros i parent Hi Hp. split; [rewrite Hrest; [done | lia]|].
  destruct (make_offspring_fields (m_evaluator s) f parent
              (world_after E (m_evaluator s) f (take i (m_pop s)) w))
    as (mutated & wm & result & we & Hm & He & Hmk).
  exists mutated, wm, result, we. split; [done|]. split; [done|].
  rewrite (Hdone i parent Hi Hp), Hmk. done.
Qed.

End OffspringLoop.

Lemma step_offspring_fills_slots_witness :
  exists pop1 w1,
    step_offspring Toy.env tt Toy.initialized 0 = Some (pop1, w1) /\
    step Toy.env tt Toy.initialized 0 = after_offspring Toy.env Toy.initialized (pop1, w1) /\
    length pop1 = 4 /\
    w1 = 4 /\
    forall i parent, i < 2 -> Toy.after_selection !! i = Some parent ->
      pop1 !! i = Some parent /\
      exists mutated wm result we,
        Toy.toy_mutate parent
          (world_after Toy.env (m_evaluator Toy.initialized) tt
             (take i Toy.after_selection) 0) = (mutated, wm) /\
        Toy.toy_evaluate (m_evaluator Toy.initialized) tt (searchPoint mutated) wm
          = (result, we) /\
        pop1 !! (2 + i) =
          Some (mkCMAIndividual (searchPoint mutated) (PENALIZED_RESULT result)
                  (UNPENALIZED_RESULT result) 0 (rank mutated) (selected mutated)
                  (noSuccessfulOffspring mutated) (stepSize mutated)
                  (targetSuccess mutated)).
Proof.
  apply (step_offspring_fills_slots Toy.env tt Toy.initialized 0).
  reflexivity.
Defined.

(** *** The survivor loop *)

Section SurvivorLoop.
Context {W Objective : Type} (E : Collaborators W Objective).

Lemma survivor_loop_spec k (pop : Population) solutionSet :
  k <= length pop ->
  for_each (survivor_body E) (seq 0 k) (pop, solutionSet) =
    Some (List.map (survive E) (take k pop) ++ drop k pop,
          solutionSet ++ List.map (fun ind => report (survive E ind)) (take k pop)).
Proof.
  intros Hk. induction k as [|k IH].
  - simpl. by rewrite drop_0, app_nil_r.
  - rewrite for_each_seq_S, IH by lia.
    destruct (lookup_lt_is_Some_2 pop k) as [x Hx]; [lia|].
    assert (Hl : length (List.map (survive E) (take k pop)) = k).
    { rewrite length_map, length_take. lia. }
    unfold survivor_body, read.
    rewrite lookup_app_r by lia. rewrite Hl, Nat.sub_diag, lookup_drop, Nat.add_0_r, Hx.
    simpl. rewrite write_Some by (rewrite length_app, length_drop; lia). simpl.
    rewrite insert_app_r_alt by lia. rewrite Hl, Nat.sub_diag.
    rewrite (drop_S pop x k Hx). simpl.
    rewrite (take_S_r pop k x Hx), !map_app. simpl.
    by rewrite <- !app_assoc.
Qed.

End SurvivorLoop.

Lemma survivors_credit (pop pop' : Population) :
  Forall2 (fun x x' => x' = x \/ x' = credit_success x) pop pop' ->
  length (survivors pop') = length (survivors pop).
Proof.
  unfold survivors, IsSelected.
  induction 1 as [|x x' pop pop' Hx _ IH]; simpl; [done|].
  assert (Hs : selected x' = selected x) by (by destruct Hx as [->| ->]).
  rewrite Hs. destruct (selected x); simpl; lia.
Qed.

(** ** One generation *)

Section Generation.
Context {W Objective : Type} (E : Collaborators W Objective).

(** One generation for any collaborators, given what the selection call did:
    when it kept the size of a population of [2 * mu] individuals and marked
    exactly [mu] of them, [step] returns, the marked individuals are the
    first [mu] after the partition, and the returned set and the new
    parents are read off them through [survive] and [report]. *)
Lemma step_returns_mu_survivors f s w :
  length (m_pop s) = 2 * mu s ->
  (forall pop1 w1, step_offspring E f s w = Some (pop1, w1) ->
     selection_marks (mu s) pop1 (fst (select E (m_selection s) pop1 w1))) ->
  exists pop3 pop4 solutionSet s' w',
    before_partition E f s w = Some pop3 /\
    length pop3 = 2 * mu s /\
    length (survivors pop3) = mu s /\
    step_partition pop3 = Some pop4 /\
    take (mu s) pop4 ≡ₚ survivors pop3 /\
    step E f s w = Some (solutionSet, s', w') /\
    length solutionSet = mu s /\
    solutionSet = List.map (fun ind => report (survive E ind)) (take (mu s) pop4) /\
    m_pop s' = List.map (survive E) (take (mu s) pop4) ++ drop (mu s) pop4.
Proof.
  intros Hlen Hsel.
  destruct (offspring_loop_spec E f s (mu s) (m_pop s) w)
    as (pop1 & Hoff & Hlen1 & _); [lia | lia |].
  fold (step_offspring E f s w) in Hoff.
  destruct (Hsel _ _ Hoff) as [Hlen2 Hmarked].
  unfold step, before_partition, after_offspring, step_select.
  rewrite Hoff. simpl.
  destruct (select E (m_selection s) pop1 _) as [pop2 w2]. simpl in *.
  destruct (success_loop_spec (m_useNewUpdate s) (mu s) (mu s) pop2)
    as (pop3 & Hsucc & Hrel & _); [lia | lia |].
  assert (Hsucc' : step_success s pop2 = Some pop3).
  { unfold step_success. destruct (m_useNewUpdate s); exact Hsucc. }
  assert (Hlen3 : length pop3 = 2 * mu s).
  { rewrite <- (Forall2_length _ _ _ Hrel). lia. }
  assert (Hmarked3 : length (survivors pop3) = mu s).
  { by rewrite (survivors_credit _ _ Hrel). }
  destruct (std_partition_survivors IsSelected pop3)
    as (pop4 & k & Hpart & Hperm & Hk & Hfil & _).
  fold (survivors pop3) in Hk. rewrite Hmarked3 in Hk. subst k.
  assert (Hpart' : step_partition pop3 = Some pop4).
  { unfold step_partition. by rewrite Hpart. }
  assert (Hlen4 : length pop4 = 2 * mu s).
  { by rewrite (Permutation_length Hperm). }
  rewrite Hsucc'. simpl. rewrite Hpart'. simpl.
  unfold step_survivors. rewrite survivor_loop_spec by lia. simpl.
  eexists pop3, pop4, _, _, _. repeat split; try done.
  - rewrite <- Hfil. by apply filter_Permutation.
  - rewrite length_map, length_take. lia.
Qed.

End Generation.

(** ** A run of the toy instance *)

(** The toy instance runs: three generations after [init(f)], none of them
    stepping outside the population. *)
Example toy_optimize_runs :
  option_map (fun r => List.map (fun g => length (fst g)) (fst (fst r)))
    (optimize Toy.env 3 tt [] Toy.configured 0) = Some [2; 2; 2].
Proof. reflexivity. Qed.


(** * Further properties of the header *)

(** ** What [std::partition] leaves where it is *)

Lemma partition_loop_in_place fuel pred (v : Population) first last :
  first <= last <= length v ->
  last - first < fuel ->
  partitioned pred v first last ->
  exists v' k, partition_loop fuel pred v first last = Some (v', k) /\
    first <= k <= last /\
    forall i x, v !! i = Some x ->
      (if pred x then i < k else k <= i) -> v' !! i = Some x.
Proof.
  revert v first last. induction fuel as [|fuel IH]; intros v first last Hb Hf [Hlo Hhi];
    [lia|]. simpl.
  destruct (scan_forward_spec pred v (last - first) first) as (Hr1 & Hall1 & Hstop1);
    [lia|].
  set (r1 := scan_forward pred v (last - first) first) in *.
  assert (Hacc : forall i x, i < r1 -> v !! i = Some x -> pred x = true).
  { intros i x Hi Hx. destruct (decide (i < first)); [eauto|].
    apply (Hall1 i x); [lia | done]. }
  destruct (Nat.eqb_spec r1 last) as [Heq|Hne].
  { exists v, r1. split; [done|]. split; [lia | done]. }
  destruct Hstop1 as (a & Ha & Hpa); [lia|].
  destruct (scan_backward_spec pred v (last - 1 - r1) (last - 1)) as (Hr2 & Hall2 & Hstop2);
    [lia | lia |].
  set (r2 := scan_backward pred v (last - 1 - r1) (last - 1)) in *.
  assert (Hrej : forall i x, r2 < i -> v !! i = Some x -> pred x = false).
  { intros i x Hi Hx. destruct (decide (last <= i)); [eauto|].
    apply (Hall2 i x); [lia | done]. }
  destruct (Nat.eqb_spec r1 r2) as [Heq|Hne2].
  { exists v, r1. split; [done|]. split; [lia | done]. }
  destruct Hstop2 as (b & Hb2 & Hpb); [lia|].
  destruct (IH (iter_swap v r1 r2) (S r1) r2) as (v' & k & Hrun & Hk & Hkeep).
  - rewrite (Permutation_length (iter_swap_perm v r1 r2 a b Ha Hb2)). lia.
  - lia.
  - split; intros i x Hi; rewrite (iter_swap_lookup v r1 r2 a b) by done;
      repeat case_decide; subst; try lia; intros Hx; simplify_eq; eauto.
    + apply (Hacc i x); [lia | done].
    + apply (Hrej i x); [lia | done].
  - exists v', k. split; [done|]. split; [lia|].
    intros i x Hx Hplace. apply Hkeep; [|done].
    rewrite (iter_swap_lookup v r1 r2 a b) by done.
    destruct (decide (i = r1)) as [->|]; [|destruct (decide (i = r2)) as [->|]; [|done]].
    + simplify_eq. rewrite Hpa in Hplace. lia.
    + simplify_eq. rewrite Hpb in Hplace. lia.
Qed.

Lemma std_partition_in_place pred (v : Population) :
  exists v' k, std_partition pred v = Some (v', k) /\
    v' ≡ₚ v /\ k = length (List.filter pred v) /\
    forall i x, v !! i = Some x ->
      (if pred x then i < k else k <= i) -> v' !! i = Some x.
Proof.
  destruct (std_partition_survivors pred v) as (v' & k & Hrun & Hperm & Hk & _).
  destruct (partition_loop_in_place (S (length v)) pred v 0 (length v))
    as (v2 & k2 & Hrun2 & _ & Hkeep).
  - lia.
  - lia.
  - split; [intros; lia|]. intros i x Hi Hx.
    apply lookup_lt_Some in Hx. lia.
  - unfold std_partition in Hrun. rewrite Hrun in Hrun2.
    injection Hrun2 as <- <-. by exists v', k.
Qed.

(** X5.  The partition moves only what is out of place.  With [k] the
    number of selected individuals, a selected individual below position
    [k] and an unselected one at [k] or above are found at the same
    position afterwards. *)
Theorem step_partition_moves_only_misplaced (pop : Population) :
  exists pop', step_partition pop = Some pop' /\
    forall i x, pop !! i = Some x -> in_place (length (survivors pop)) i x ->
      pop' !! i = Some x.
Proof.
  destruct (std_partition_in_place IsSelected pop) as (pop' & k & Hrun & _ & -> & Hkeep).
  exists pop'. unfold step_partition. rewrite Hrun. split; [done|].
  intros i x Hx Hplace. by apply Hkeep.
Qed.

(** X6.  A population in which every selected individual already precedes
    every unselected one comes out of the partition as it went in. *)
Theorem step_partition_fixes_partitioned (yes no : Population) :
  Forall (fun x => selected x = true) yes ->
  Forall (fun x => selected x = false) no ->
  step_partition (yes ++ no) = Some (yes ++ no).
Proof.
  intros Hyes Hno.
  destruct (std_partition_in_place IsSelected (yes ++ no))
    as (pop' & k & Hrun & Hperm & Hk & Hkeep).
  unfold step_partition. rewrite Hrun. simpl. f_equal.
  assert (Hk' : k = length yes).
  { rewrite Hk, List.filter_app, (filter_all_true IsSelected _ Hyes),
      (filter_all_false IsSelected _ Hno).
    by rewrite app_nil_r. }
  apply list_eq. intros i.
  destruct ((yes ++ no) !! i) as [x|] eqn:Hx.
  - apply Hkeep; [done|]. unfold IsSelected.
    apply lookup_app_Some in Hx as [Hx|[Hi Hx]].
    + rewrite (proj1 (Forall_lookup _ _) Hyes i x Hx).
      apply lookup_lt_Some in Hx. lia.
    + rewrite (proj1 (Forall_lookup _ _) Hno _ x Hx). lia.
  - apply lookup_ge_None in Hx. apply lookup_ge_None.
    by rewrite (Permutation_length Hperm).
Qed.

Lemma step_partition_fixes_partitioned_witness :
  step_partition [Toy.member 11 true 0; Toy.member 12 true 0;
                  Toy.member 10 false 1; Toy.member 13 false 1]
  = Some [Toy.member 11 true 0; Toy.member 12 true 0;
          Toy.member 10 false 1; Toy.member 13 false 1].
Proof.
  apply (step_partition_fixes_partitioned
           [Toy.member 11 true 0; Toy.member 12 true 0]
           [Toy.member 10 false 1; Toy.member 13 false 1]);
    repeat constructor.
Defined.

(** ** When [step] is defined *)

Section StepDefined.
Context {W Objective : Type} (E : Collaborators W Objective).

Lemma offspring_body_Some f s i (pop pop' : Population) w w' :
  offspring_body E f s i (pop, w) = Some (pop', w') ->
  mu s + i < length pop /\ length pop' = length pop.
Proof.
  intros H. destruct (decide (mu s + i < length pop)) as [Hlt|Hge].
  - split; [done|]. destruct (pop !! i) as [parent|] eqn:Hp.
    + rewrite (offspring_body_spec E f s i pop w parent Hp Hlt) in H.
      injection H as <- _. by rewrite length_insert.
    + unfold offspring_body, read in H. by rewrite Hp in H.
  - unfold offspring_body, read, write in H.
    destruct (pop !! i) as [parent|]; simpl in H; [|done].
    by rewrite decide_False in H.
Qed.

Lemma offspring_loop_Some f s k (pop pop' : Population) w w' :
  for_each (offspring_body E f s) (seq 0 k) (pop, w) = Some (pop', w') ->
  length pop' = length pop /\ (k = 0 \/ mu s + k <= length pop).
Proof.
  revert pop' w'. induction k as [|k IH]; intros pop' w' H.
  - simpl in H. injection H as <- _. auto.
  - rewrite for_each_seq_S in H.
    destruct (for_each (offspring_body E f s) (seq 0 k) (pop, w)) as [[pop1 w1]|];
      [|done].
    destruct (IH pop1 w1 eq_refl) as [Hlen _].
    apply offspring_body_Some in H as [Hlt Hlen']. split; [lia|]. right. lia.
Qed.

Lemma step_offspring_Some_inv f s w st :
  step_offspring E f s w = Some st ->
  mu s = 0 \/ 2 * mu s <= length (m_pop s).
Proof.
  destruct st as [pop' w']. intros H.
  apply offspring_loop_Some in H as [_ [H|H]]; [by left | right; lia].
Qed.

(** X1.  The offspring loop stays inside the vector exactly when there are
    no parents at all or the population holds at least [2 * mu]
    individuals; a [step] that returns is one of these two cases.  So is a
    [step] on an optimizer whose [init(f, sp)] has not run while [mu] is
    positive: it reads or writes past the end of [m_pop]. *)
Theorem step_offspring_defined_iff f s w :
  (is_Some (step_offspring E f s w) <->
   mu s = 0 \/ 2 * mu s <= length (m_pop s)) /\
  (is_Some (step E f s w) -> mu s = 0 \/ 2 * mu s <= length (m_pop s)).
Proof.
  split; [split|].
  - intros [st Hst]. by eapply step_offspring_Some_inv.
  - intros [H0|Hlen].
    + unfold step_offspring. rewrite H0. by eexists.
    + destruct (offspring_loop_spec E f s (mu s) (m_pop s) w) as (pop' & Hrun & _);
        [lia | done |].
      unfold step_offspring. rewrite Hrun. by eexists.
  - intros [r Hr]. unfold step in Hr.
    destruct (step_offspring E f s w) as [st|] eqn:Hst; [|done].
    by eapply step_offspring_Some_inv.
Qed.

Lemma step_short_population f s w :
  0 < mu s -> length (m_pop s) < 2 * mu s -> step E f s w = None.
Proof.
  intros Hmu Hlen. unfold step.
  destruct (step_offspring E f s w) as [st|] eqn:Hst; [|done].
  apply step_offspring_Some_inv in Hst. lia.
Qed.

(** The phases of a [step] on a population of at least [2 * mu]
    individuals, when the selection call keeps the size of the vector. *)
Lemma step_phases f s w :
  2 * mu s <= length (m_pop s) ->
  (forall pop1 w1, step_offspring E f s w = Some (pop1, w1) ->
     length (fst (select E (m_selection s) pop1 w1)) = length pop1) ->
  exists pop1 w1 pop2 w2 pop3 pop4,
    step_offspring E f s w = Some (pop1, w1) /\
    length pop1 = length (m_pop s) /\
    select E (m_selection s) pop1 w1 = (pop2, w2) /\
    length pop2 = length (m_pop s) /\
    step_success s pop2 = Some pop3 /\
    Forall2 credited_at_most_once pop2 pop3 /\
    before_partition E f s w = Some pop3 /\
    step_partition pop3 = Some pop4 /\
    length pop4 = length (m_pop s) /\
    step E f s w =
      Some (List.map (fun ind => report (survive E ind)) (take (mu s) pop4),
            set_m_pop (List.map (survive E) (take (mu s) pop4) ++ drop (mu s) pop4) s,
            w2).
Proof.
  intros Hlen Hsel.
  destruct (offspring_loop_spec E f s (mu s) (m_pop s) w)
    as (pop1 & Hoff & Hlen1 & _); [lia | lia |].
  fold (step_offspring E f s w) in Hoff.
  specialize (Hsel _ _ Hoff).
  unfold step, before_partition, after_offspring, step_select.
  rewrite Hoff. simpl.
  destruct (select E (m_selection s) pop1 _) as [pop2 w2] eqn:Hselect. simpl in *.
  destruct (success_loop_spec (m_useNewUpdate s) (mu s) (mu s) pop2)
    as (pop3 & Hsucc & Hrel & _); [lia | lia |].
  assert (Hsucc' : step_success s pop2 = Some pop3).
  { unfold step_success. destruct (m_useNewUpdate s); exact Hsucc. }
  destruct (std_partition_spec IsSelected pop3) as (pop4 & k & Hpart & Hperm & _).
  assert (Hpart' : step_partition pop3 = Some pop4).
  { unfold step_partition. by rewrite Hpart. }
  assert (Hlen4 : length pop4 = length (m_pop s)).
  { rewrite (Permutation_length Hperm), <- (Forall2_length _ _ _ Hrel). lia. }
  rewrite Hsucc'. simpl. rewrite Hpart'. simpl.
  unfold step_survivors. rewrite survivor_loop_spec by lia. simpl.
  eexists pop1, _, pop2, w2, pop3, pop4. repeat split; try done. lia.
Qed.

(** X2.  [step] never resizes the population and never touches the
    configuration.  On a population of at least [2 * mu] individuals, with
    a selection call that keeps the size of the vector, [step] returns; the
    population has the length it had; [mu], evaluator, selection operator,
    notion of success, threshold and initial sigma are unchanged; and the
    returned set lists, in order, the search point and unpenalized fitness
    of the new parents in slots [0 .. mu-1]. *)
Theorem step_keeps_size_and_configuration f s w :
  2 * mu s <= length (m_pop s) ->
  (forall pop1 w1, step_offspring E f s w = Some (pop1, w1) ->
     length (fst (select E (m_selection s) pop1 w1)) = length pop1) ->
  exists solutionSet s' w',
    step E f s w = Some (solutionSet, s', w') /\
    length (m_pop s') = length (m_pop s) /\
    s' = set_m_pop (m_pop s') s /\
    length solutionSet = mu s /\
    solutionSet = List.map report (take (mu s') (m_pop s')).
Proof.
  intros Hlen Hsel.
  destruct (step_phases f s w Hlen Hsel)
    as (pop1 & w1 & pop2 & w2 & pop3 & pop4 & _ & _ & _ & _ & _ & _ & _ & _ & Hlen4 & Hstep).
  eexists _, _, _. split; [exact Hstep|].
  assert (Hl : length (List.map (survive E) (take (mu s) pop4)) = mu s).
  { rewrite length_map, length_take. lia. }
  simpl. repeat split.
  - rewrite length_app, Hl, length_drop. lia.
  - rewrite length_map, length_take. lia.
  - unfold mu at 2. simpl. fold (mu s).
    rewrite take_app_length' by done. by rewrite List.map_map.
Qed.

End StepDefined.

Lemma step_keeps_size_and_configuration_witness :
  exists solutionSet s' w',
    step Toy.env tt Toy.initialized 0 = Some (solutionSet, s', w') /\
    length (m_pop s') = 4 /\
    s' = set_m_pop (m_pop s') Toy.initialized /\
    length solutionSet = 2 /\
    solutionSet = List.map report (take (mu s') (m_pop s')).
Proof.
  apply (step_keeps_size_and_configuration Toy.env tt Toy.initialized 0).
  - simpl. lia.
  - intros pop1 w1 _. apply length_imap.
Defined.

(** ** The success loop as a whole *)

Lemma successful_old_new o p :
  successful false o p = true -> successful true o p = true.
Proof. unfold successful. by intros [H _]%andb_true_iff. Qed.

(** X3.  The success loop changes nothing but success counters, and no
    counter by more than one: every individual comes out either as it went
    in or with [noSuccessfulOffspring] raised by one; individuals beyond the
    first [2 * mu] are not touched; and the number of selected individuals
    is unchanged. *)
Theorem step_success_credits_at_most_once s (pop : Population) :
  2 * mu s <= length pop ->
  exists pop', step_success s pop = Some pop' /\
    Forall2 credited_at_most_once pop pop' /\
    (forall j, 2 * mu s <= j -> pop' !! j = pop !! j) /\
    length (survivors pop') = length (survivors pop).
Proof.
  intros Hlen.
  destruct (success_loop_spec (m_useNewUpdate s) (mu s) (mu s) pop)
    as (pop' & Hrun & Hrel & _ & Hrest); [lia | done |].
  exists pop'. split.
  { unfold step_success. destruct (m_useNewUpdate s); exact Hrun. }
  split; [exact Hrel|]. split.
  - intros j Hj. apply Hrest. lia.
  - by apply survivors_credit.
Qed.

Lemma step_success_credits_at_most_once_witness :
  exists pop', step_success Toy.initialized Toy.after_selection = Some pop' /\
    Forall2 credited_at_most_once Toy.after_selection pop' /\
    (forall j, 4 <= j -> pop' !! j = Toy.after_selection !! j) /\
    length (survivors pop') = 2.
Proof.
  apply (step_success_credits_at_most_once Toy.initialized Toy.after_selection).
  simpl. lia.
Defined.

(** X4.  The two notions of success are nested.  On the same population,
    whoever is credited under the individual-based notion is credited under
    the population-based one: going from the outcome of the first to the
    outcome of the second, each individual is the same or has one more
    success. *)
Theorem step_success_notions_nested s (pop : Population) :
  2 * mu s <= length pop ->
  exists pop_old pop_new,
    step_success (set_m_useNewUpdate false s) pop = Some pop_old /\
    step_success (set_m_useNewUpdate true s) pop = Some pop_new /\
    Forall2 credited_at_most_once pop_old pop_new.
Proof.
  intros Hlen.
  destruct (success_loop_spec false (mu s) (mu s) pop)
    as (pop_old & Hrun_o & Hrel_o & Hdone_o & Hrest_o); [lia | done |].
  destruct (success_loop_spec true (mu s) (mu s) pop)
    as (pop_new & Hrun_n & Hrel_n & Hdone_n & Hrest_n); [lia | done |].
  exists pop_old, pop_new. split; [exact Hrun_o|]. split; [exact Hrun_n|].
  apply Forall2_same_length_lookup_2.
  { rewrite <- (Forall2_length _ _ _ Hrel_o). by eapply Forall2_length. }
  intros j x y Hx Hy.
  assert (Hcase : forall a (c_o c_n : bool),
            (c_o = true -> c_n = true) ->
            credited_at_most_once (if c_o then credit_success a else a)
                                  (if c_n then credit_success a else a)).
  { intros a [] [] Himp; try (by left); try (by right).
    specialize (Himp eq_refl). done. }
  destruct (decide (j < mu s)) as [Hj|Hj].
  - destruct (lookup_lt_is_Some_2 pop j) as [p Hp]; [lia|].
    destruct (lookup_lt_is_Some_2 pop (mu s + j)) as [o Ho]; [lia|].
    destruct (Hdone_o j p o Hj Hp Ho) as [Ho1 _].
    destruct (Hdone_n j p o Hj Hp Ho) as [Hn1 _].
    rewrite Ho1 in Hx. rewrite Hn1 in Hy. simplify_eq.
    apply Hcase, successful_old_new.
  - destruct (decide (j < 2 * mu s)) as [Hj2|Hj2].
    + destruct (lookup_lt_is_Some_2 pop (j - mu s)) as [p Hp]; [lia|].
      destruct (lookup_lt_is_Some_2 pop j) as [o Ho]; [lia|].
      replace j with (mu s + (j - mu s)) in Ho, Hx, Hy by lia.
      destruct (Hdone_o (j - mu s) p o) as [_ Ho1]; [lia | done | done |].
      destruct (Hdone_n (j - mu s) p o) as [_ Hn1]; [lia | done | done |].
      rewrite Ho1 in Hx. rewrite Hn1 in Hy. simplify_eq.
      apply Hcase, successful_old_new.
    + rewrite Hrest_o in Hx by lia. rewrite Hrest_n in Hy by lia.
      simplify_eq. by left.
Qed.

Lemma step_success_notions_nested_witness :
  exists pop_old pop_new,
    step_success (set_m_useNewUpdate false Toy.initialized) Toy.after_selection
      = Some pop_old /\
    step_success (set_m_useNewUpdate true Toy.initialized) Toy.after_selection
      = Some pop_new /\
    Forall2 credited_at_most_once pop_old pop_new.
Proof.
  apply (step_success_notions_nested Toy.initialized Toy.after_selection).
  simpl. lia.
Defined.

(** ** Who sits where after a [step] *)

Lemma lookup_List_map {A B : Type} (f : A -> B) (l : list A) i :
  List.map f l !! i = f <$> l !! i.
Proof.
  revert i. induction l as [|a l IH]; intros [|i]; simpl; try done.
Qed.

Section Slots.
Context {W Objective : Type} (E : Collaborators W Objective).

(** X7.  Survivors among the parents keep their slot.  Take a population
    of [2 * mu] individuals and a selection call that keeps the size and
    marks exactly [mu] of them.  A selected individual that sits in a
    parent slot when the partition starts is in the same slot when [step]
    returns, aged and updated, and its pair is at the same index of the
    returned set; an unselected individual in an offspring slot stays
    where it is, untouched. *)
Theorem step_survivor_keeps_slot f s w :
  length (m_pop s) = 2 * mu s ->
  (forall pop1 w1, step_offspring E f s w = Some (pop1, w1) ->
     selection_marks (mu s) pop1 (fst (select E (m_selection s) pop1 w1))) ->
  exists pop3 (solutionSet : list ResultSet) s' w',
    before_partition E f s w = Some pop3 /\
    step E f s w = Some (solutionSet, s', w') /\
    (forall i x, pop3 !! i = Some x -> selected x = true -> i < mu s ->
       m_pop s' !! i = Some (survive E x) /\
       solutionSet !! i = Some (report (survive E x))) /\
    (forall j x, pop3 !! j = Some x -> selected x = false -> mu s <= j ->
       m_pop s' !! j = Some x).
Proof.
  intros Hlen Hsel.
  destruct (step_phases E f s w) as
    (pop1 & w1 & pop2 & w2 & pop3 & pop4 & Hoff & Hlen1 & Hselect & Hlen2 &
     Hsucc & Hrel & Hbefore & Hpart & Hlen4 & Hstep); [lia | |].
  { intros p1 w1' H. by destruct (Hsel p1 w1' H). }
  destruct (Hsel _ _ Hoff) as [_ Hmarked]. rewrite Hselect in Hmarked. simpl in Hmarked.
  destruct (std_partition_in_place IsSelected pop3)
    as (pop4' & k & Hrun & _ & Hk & Hkeep).
  assert (pop4' = pop4) as ->.
  { unfold step_partition in Hpart. rewrite Hrun in Hpart. by injection Hpart. }
  fold (survivors pop3) in Hk. rewrite (survivors_credit _ _ Hrel), Hmarked in Hk.
  subst k.
  assert (Hl : length (List.map (survive E) (take (mu s) pop4)) = mu s).
  { rewrite length_map, length_take. lia. }
  eexists pop3, _, _, _. split; [exact Hbefore|]. split; [exact Hstep|].
  simpl. split.
  - intros i x Hx Hs Hi.
    assert (Hx4 : pop4 !! i = Some x).
    { apply Hkeep; [done|]. unfold IsSelected. by rewrite Hs. }
    split.
    + rewrite lookup_app_l by lia. rewrite lookup_List_map, lookup_take_lt by lia.
      by rewrite Hx4.
    + rewrite lookup_List_map, lookup_take_lt by lia. by rewrite Hx4.
  - intros j x Hx Hs Hj.
    assert (Hx4 : pop4 !! j = Some x).
    { apply Hkeep; [done|]. unfold IsSelected. by rewrite Hs. }
    rewrite lookup_app_r by lia. rewrite Hl, lookup_drop.
    by replace (mu s + (j - mu s)) with j by lia.
Qed.

End Slots.

Lemma step_survivor_keeps_slot_witness :
  exists pop3 (solutionSet : list ResultSet) s' w',
    before_partition Toy.env tt Toy.initialized 0 = Some pop3 /\
    step Toy.env tt Toy.initialized 0 = Some (solutionSet, s', w') /\
    (forall i x, pop3 !! i = Some x -> selected x = true -> i < 2 ->
       m_pop s' !! i = Some (survive Toy.env x) /\
       solutionSet !! i = Some (report (survive Toy.env x))) /\
    (forall j x, pop3 !! j = Some x -> selected x = false -> 2 <= j ->
       m_pop s' !! j = Some x).
Proof.
  apply (step_survivor_keeps_slot Toy.env tt Toy.initialized 0).
  - reflexivity.
  - intros pop1 w1 H. injection H as <- <-. split; reflexivity.
Defined.

(** ** Whole runs *)

Section RunsDefined.
Context {W Objective : Type} (E : Collaborators W Objective).

Lemma init_objective_config f sp s w :
  fst (init_objective E f sp s w) =
    set_m_pop (m_pop (fst (init_objective E f sp s w))) s.
Proof.
  unfold init_objective.
  by destruct (init_loop E (2 * mu s) f s _ _ (m_pop s, w)) as [pop w'].
Qed.

Lemma run_defined n f s w :
  2 * mu s <= length (m_pop s) ->
  (forall sel pop w0, length (fst (select E sel pop w0)) = length pop) ->
  exists trace s' w',
    run E n f s w = Some (trace, s', w') /\
    length trace = n /\
    Forall (fun g => length (fst g) = mu s /\ length (snd g) = mu s) trace /\
    length (m_pop s') = length (m_pop s) /\
    mu s' = mu s.
Proof.
  intros Hlen Hsel. revert s w Hlen. induction n as [|n IH]; intros s w Hlen.
  - exists [], s, w. by repeat split.
  - destruct (step_phases E f s w Hlen) as
      (pop1 & w1 & pop2 & w2 & pop3 & pop4 & _ & _ & _ & _ & _ & _ & _ & _ & Hlen4 & Hstep).
    { intros. apply Hsel. }
    cbn [run]. rewrite Hstep. simpl.
    match goal with |- context [run E n f ?s1 w2] => set (s1' := s1) end.
    assert (Hl : length (List.map (survive E) (take (mu s) pop4)) = mu s).
    { rewrite length_map, length_take. lia. }
    assert (Hlen' : length (m_pop s1') = length (m_pop s)).
    { simpl. rewrite length_app, Hl, length_drop. lia. }
    destruct (IH s1' w2) as (trace & s' & w' & Hrun & Htr & Hall & Hlens & Hmu).
    { change (mu s1') with (mu s). lia. }
    rewrite Hrun. simpl. eexists _, s', w'. split; [done|].
    split; [simpl; lia|]. split; [|split; [lia | done]].
    constructor; [|done]. unfold observe. simpl. split.
    + rewrite length_map, length_take. lia.
    + rewrite length_fmap, length_take. change (mu s1') with (mu s).
      rewrite length_app, Hl, length_drop. lia.
Qed.

(** X8.  Once [init(f, sp)] has run on an optimizer with an empty
    population, any number of [step] calls stay inside the vector, when
    selection keeps the size of the population it is given: the run returns
    one survivor set of [mu] entries and [mu] step sizes per generation,
    and the population still has [2 * mu] individuals at the end. *)
Theorem optimize_defined n f sp s w :
  m_pop s = [] ->
  (forall sel pop w0, length (fst (select E sel pop w0)) = length pop) ->
  exists trace s' w',
    optimize E n f sp s w = Some (trace, s', w') /\
    length trace = n /\
    Forall (fun g => length (fst g) = mu s /\ length (snd g) = mu s) trace /\
    length (m_pop s') = 2 * mu s /\
    mu s' = mu s.
Proof.
  intros Hempty Hsel. unfold optimize.
  destruct (init_objective_population E f sp s w) as (new & Hpop & Hnew & _).
  pose proof (init_objective_config f sp s w) as Hcfg.
  destruct (init_objective E f sp s w) as [s0 w0]. simpl in *.
  rewrite Hempty in Hpop. simpl in Hpop.
  assert (Hmu : mu s0 = mu s) by (by rewrite Hcfg).
  destruct (run_defined n f s0 w0) as (trace & s' & w' & Hrun & Htr & Hall & Hlen & Hmu').
  { rewrite Hmu, Hpop. lia. }
  { done. }
  exists trace, s', w'. rewrite Hmu in *. rewrite Hpop, Hnew in Hlen.
  by repeat split.
Qed.

(** X9.  With [mu = 0] nothing is out of bounds: [init(f, sp)] adds no
    individual and consults neither the objective nor the random source,
    and [step] evaluates nothing and returns the empty set, leaving in
    [m_pop] a rearrangement of what selection made of it. *)
Theorem zero_parents f sp s w :
  mu s = 0 ->
  init_objective E f sp s w = (s, w) /\
  exists pop',
    step E f s w =
      Some ([], set_m_pop pop' s, snd (select E (m_selection s) (m_pop s) w)) /\
    pop' ≡ₚ fst (select E (m_selection s) (m_pop s) w).
Proof.
  intros Hmu. split.
  - unfold init_objective. rewrite Hmu. simpl. by destruct s.
  - unfold step, step_offspring, after_offspring, step_select, step_success,
      step_survivors.
    rewrite Hmu. simpl.
    destruct (select E (m_selection s) (m_pop s) w) as [pop2 w2]. simpl.
    destruct (std_partition_spec IsSelected pop2) as (pop4 & k & Hpart & Hperm & _).
    exists pop4. unfold step_partition.
    destruct (m_useNewUpdate s); simpl; rewrite Hpart; simpl; by split.
Qed.

End RunsDefined.

Lemma optimize_defined_witness :
  exists trace s' w',
    optimize Toy.env 3 tt [] Toy.configured 0 = Some (trace, s', w') /\
    length trace = 3 /\
    Forall (fun g => length (fst g) = 2 /\ length (snd g) = 2) trace /\
    length (m_pop s') = 4 /\
    mu s' = 2.
Proof.
  apply (optimize_defined Toy.env 3 tt [] Toy.configured 0).
  - reflexivity.
  - intros sel pop w0. apply length_imap.
Defined.

Lemma zero_parents_witness :
  init_objective Toy.env tt [] (set_m_selection (mkIndicatorBasedSelection 0) Toy.initialized) 0
    = (set_m_selection (mkIndicatorBasedSelection 0) Toy.initialized, 0) /\
  exists pop',
    step Toy.env tt (set_m_selection (mkIndicatorBasedSelection 0) Toy.initialized) 0 =
      Some ([], set_m_pop pop' (set_m_selection (mkIndicatorBasedSelection 0) Toy.initialized),
            snd (Toy.toy_select (mkIndicatorBasedSelection 0) Toy.after_selection 0)) /\
    pop' ≡ₚ fst (Toy.toy_select (mkIndicatorBasedSelection 0) Toy.after_selection 0).
Proof.
  apply (zero_parents Toy.env tt []
           (set_m_selection (mkIndicatorBasedSelection 0) Toy.initialized) 0).
  reflexivity.
Defined.

(** ** Configuration, construction and archives *)

(** X10.  Default construction leaves no member undetermined: whatever
    the scalar members held before, the optimizer comes out with
    [mu = 100], penalty factor [1e-6], threshold [0.44], the
    individual-based notion, sigma [1] and an empty population.  A [step]
    on it - without [init(f, sp)] in between - runs out of the vector. *)
Theorem default_construction (before : MOCMA) :
  MOCMA_new before =
    Returned (mkMOCMA [] (mkPenalizingEvaluator DEFAULT_PENALTY_FACTOR)
                (mkIndicatorBasedSelection DEFAULT_MU) false
                DEFAULT_SUCCESS_THRESHOLD DEFAULT_INITIAL_SIGMA) /\
  forall (W Objective : Type) (E : Collaborators W Objective) f w,
    step E f (mkMOCMA [] (mkPenalizingEvaluator DEFAULT_PENALTY_FACTOR)
                (mkIndicatorBasedSelection DEFAULT_MU) false
                DEFAULT_SUCCESS_THRESHOLD DEFAULT_INITIAL_SIGMA) w = None.
Proof.
  split; [reflexivity|]. intros W Objective E f w.
  apply step_short_population; unfold mu, DEFAULT_MU; simpl; lia.
Qed.

(** X11.  [configure] falls back key by key.  It always returns; a key
    the tree lacks gives the default of that parameter - the notion of
    success then is the individual-based one - and the key read for sigma
    is ["InitialSigma"].  The population is not touched. *)
Theorem configure_missing_keys node s :
  exists s', configure node s = Returned s' /\
    (get_unsigned node "Mu" = None -> mu s' = DEFAULT_MU) /\
    (get_double node "PenaltyFactor" = None ->
       m_penaltyFactor (m_evaluator s') = DEFAULT_PENALTY_FACTOR) /\
    (get_double node "SuccessThreshold" = None ->
       m_individualSuccessThreshold s' = DEFAULT_SUCCESS_THRESHOLD) /\
    (get_string node "NotionOfSuccess" = None -> m_useNewUpdate s' = false) /\
    (get_double node "InitialSigma" = None -> m_initialSigma s' = DEFAULT_INITIAL_SIGMA) /\
    m_pop s' = m_pop s.
Proof.
  unfold configure.
  destruct (init_returns (default DEFAULT_MU (get_unsigned node "Mu"))
              (default DEFAULT_PENALTY_FACTOR (get_double node "PenaltyFactor"))
              (default DEFAULT_SUCCESS_THRESHOLD (get_double node "SuccessThreshold"))
              (default DEFAULT_NOTION_OF_SUCCESS (get_string node "NotionOfSuccess"))
              (default DEFAULT_INITIAL_SIGMA (get_double node "InitialSigma")) s)
    as (b & -> & Hb).
  eexists. split; [reflexivity|]. unfold mu. simpl.
  repeat split; try (by intros ->).
  intros Hn. rewrite Hn in Hb. by subst b.
Qed.

(** X12.  Configuring twice.  [init] with the same arguments a second
    time changes nothing, whatever the notion string.  And a call whose
    notion is one of the two recognised strings overrides everything an
    earlier call configured: its outcome is the same as if the earlier call
    had not happened. *)
Theorem init_again mu1 pf1 thr1 notion1 sigma1 mu2 pf2 thr2 notion2 sigma2 s s1 :
  init mu1 pf1 thr1 notion1 sigma1 s = Returned s1 ->
  init mu1 pf1 thr1 notion1 sigma1 s1 = Returned s1 /\
  (recognised_notion notion2 ->
   init mu2 pf2 thr2 notion2 sigma2 s1 = init mu2 pf2 thr2 notion2 sigma2 s).
Proof.
  intros H1.
  destruct (init_returns mu1 pf1 thr1 notion1 sigma1 s) as (b & Hr & Hb).
  rewrite Hr in H1. injection H1 as <-. split.
  - destruct (init_returns mu1 pf1 thr1 notion1 sigma1
                (mkMOCMA (m_pop s) (mkPenalizingEvaluator pf1)
                   (mkIndicatorBasedSelection mu1) b thr1 sigma1))
      as (b' & -> & Hb'). simpl in *. do 2 f_equal.
    rewrite Hb', Hb.
    by destruct (String.eqb notion1 "IndividualBased"),
                (String.eqb notion1 "PopulationBased").
  - intros [-> | ->]; reflexivity.
Qed.

Lemma init_again_witness :
  init 7 2 3 "Bogus" 4 (mkMOCMA [] (mkPenalizingEvaluator 2) (mkIndicatorBasedSelection 7)
                          true 3 4)
    = Returned (mkMOCMA [] (mkPenalizingEvaluator 2) (mkIndicatorBasedSelection 7)
                  true 3 4) /\
  (recognised_notion "PopulationBased" ->
   init 9 5 6 "PopulationBased" 8
        (mkMOCMA [] (mkPenalizingEvaluator 2) (mkIndicatorBasedSelection 7) true 3 4)
   = init 9 5 6 "PopulationBased" 8 (set_m_useNewUpdate true Toy.configured)).
Proof.
  apply (init_again 7 2 3 "Bogus" 4 9 5 6 "PopulationBased" 8
           (set_m_useNewUpdate true Toy.configured)).
  reflexivity.
Defined.

(** X13.  What a round trip through an archive gives back.  Loading what
    was stored from [src] into [dst] yields [src] itself exactly when [dst]
    already had the success threshold and the initial sigma of [src]. *)
Theorem serialize_round_trip_iff src dst :
  serialize_load dst (serialize_save src []) = Some (src, []) <->
  m_individualSuccessThreshold dst = m_individualSuccessThreshold src /\
  m_initialSigma dst = m_initialSigma src.
Proof.
  simpl. split.
  - intros H. injection H as H. split.
    + by apply (f_equal m_individualSuccessThreshold) in H.
    + by apply (f_equal m_initialSigma) in H.
  - intros [Ht Hs]. destruct src, dst. simpl in *. by subst.
Qed.

Section InitAccumulates.
Context {W Objective : Type} (E : Collaborators W Objective).

(** X14.  [init(f, sp)] does not start from an empty vector: it keeps the
    individuals that are there, in place, and puts [2 * mu] new ones behind
    them, leaving the configuration alone.  A second call therefore leaves
    [4 * mu] more individuals than there were at first. *)
Theorem init_objective_accumulates f sp sp' s w :
  exists new new' s2 w2,
    init_objective E f sp s w = (set_m_pop (m_pop s ++ new) s, w2) /\
    length new = 2 * mu s /\
    fst (init_objective E f sp' (set_m_pop (m_pop s ++ new) s) w2) = s2 /\
    m_pop s2 = m_pop s ++ new ++ new' /\
    length new' = 2 * mu s /\
    length (m_pop s2) = length (m_pop s) + 4 * mu s.
Proof.
  destruct (init_objective_population E f sp s w) as (new & Hpop & Hnew & _).
  pose proof (init_objective_config E f sp s w) as Hcfg.
  destruct (init_objective E f sp s w) as [s1 w1] eqn:H1. simpl in *.
  rewrite Hpop in Hcfg. subst s1.
  destruct (init_objective_population E f sp' (set_m_pop (m_pop s ++ new) s) w1)
    as (new' & Hpop' & Hnew' & _).
  exists new, new', (fst (init_objective E f sp' (set_m_pop (m_pop s ++ new) s) w1)), w1.
  split; [done|]. split; [done|]. split; [done|].
  change (mu (set_m_pop (m_pop s ++ new) s)) with (mu s) in Hnew'.
  simpl in Hpop'. rewrite Hpop', <- app_assoc. split; [done|]. split; [done|].
  rewrite !length_app. lia.
Qed.

End InitAccumulates.

(** * Indicator-based selection as the specification describes it *)

(** ** Pareto dominance is a strict order *)

Lemma Rleb_le x y : Rleb x y = true <-> (x <= y)%R.
Proof. unfold Rleb. destruct (Rle_dec x y); split; (done || lra). Qed.

Lemma Rltb_lt x y : Rltb x y = true <-> (x < y)%R.
Proof. unfold Rltb. destruct (Rlt_dec x y); split; (done || lra). Qed.

Lemma better_somewhere_irrefl a : better_somewhere a a = false.
Proof.
  induction a as [|x a IH]; simpl; [done|]. rewrite IH, orb_false_r.
  destruct (Rltb x x) eqn:H; [|done]. apply Rltb_lt in H. lra.
Qed.

Lemma no_worse_trans a b c :
  no_worse a b = true -> no_worse b c = true -> no_worse a c = true.
Proof.
  revert b c. induction a as [|x a IH]; intros [|y b] [|z c]; simpl; try done.
  intros [Hxy Hab]%andb_true_iff [Hyz Hbc]%andb_true_iff.
  apply andb_true_iff. split; [|by eapply IH].
  apply Rleb_le in Hxy, Hyz. apply Rleb_le. lra.
Qed.

Lemma better_then_no_worse a b c :
  better_somewhere a b = true -> no_worse a b = true -> no_worse b c = true ->
  better_somewhere a c = true.
Proof.
  revert b c. induction a as [|x a IH]; intros [|y b] [|z c]; simpl; try done.
  intros Hb [Hxy Hab]%andb_true_iff [Hyz Hbc]%andb_true_iff.
  apply Rleb_le in Hxy, Hyz. apply orb_true_iff in Hb as [Hlt|Hb].
  - apply Rltb_lt in Hlt. apply orb_true_iff. left. apply Rltb_lt. lra.
  - apply orb_true_iff. right. by eapply IH.
Qed.

Example dominates_examples :
  dominates [1; 2]%R [2; 2]%R = true /\
  dominates [1; 2]%R [1; 2]%R = false /\
  dominates [1; 3]%R [2; 2]%R = false /\
  dominates [1]%R [2; 2]%R = false.
Proof.
  unfold dominates, no_worse, better_somewhere, Rleb, Rltb.
  repeat split;
    repeat (destruct (Rle_dec _ _)); repeat (destruct (Rlt_dec _ _));
    simpl; try reflexivity; lra.
Qed.

Lemma dominates_irrefl a : dominates a a = false.
Proof. unfold dominates. by rewrite better_somewhere_irrefl, andb_false_r. Qed.

Lemma dominates_trans a b c :
  dominates a b = true -> dominates b c = true -> dominates a c = true.
Proof.
  unfold dominates.
  intros [Hab Hb]%andb_true_iff [Hbc _]%andb_true_iff.
  apply andb_true_iff. split.
  - by eapply no_worse_trans.
  - by eapply better_then_no_worse.
Qed.

(** ** Non-dominated sorting ranks everybody *)

Lemma exists_undominated (pop : Population) (members : list nat) :
  members <> [] ->
  exists m, m ∈ members /\ ~ dominated_in pop members m.
Proof.
  unfold dominated_in.
  induction members as [|a l IH]; [done|]. intros _.
  destruct l as [|b l].
  - exists a. split; [by left|]. intros H. apply Exists_cons in H as [H|H].
    + by rewrite dominates_irrefl in H.
    + by apply Exists_nil in H.
  - destruct IH as (m & Hm & Hmin); [done|].
    destruct (dominates (fitness_at pop a) (fitness_at pop m)) eqn:Ham.
    + exists a. split; [by left|]. intros H. apply Exists_cons in H as [H|H].
      * by rewrite dominates_irrefl in H.
      * apply Hmin. eapply Exists_impl; [exact H|]. simpl.
        intros j Hj. by eapply dominates_trans.
    + exists m. split; [by right|]. intros H. apply Exists_cons in H as [H|H].
      * congruence.
      * by apply Hmin.
Qed.

Lemma fronts_cover fuel (pop : Population) (members : list nat) :
  length members <= fuel ->
  concat (fronts fuel pop members) ≡ₚ members.
Proof.
  revert members. induction fuel as [|fuel IH]; intros members Hlen.
  - destruct members; [done | simpl in Hlen; lia].
  - destruct members as [|a l]; [done|].
    set (members := a :: l) in *. cbn [fronts]. fold members. simpl.
    destruct (exists_undominated pop members) as (m & Hm & Hmin); [done|].
    pose proof (length_filter_lt (dominated_in pop members) members m Hm Hmin) as Hlt.
    rewrite IH by lia.
    rewrite (comm (++)). apply filter_app_complement.
Qed.

(** ** Choosing the survivors *)

Section Choosing.
Context {W : Type} (leastContributor : list RealVector -> W -> nat * W).
Hypothesis in_range : indicator_in_range leastContributor.

Lemma prune_spec n (pop : Population) (front : list nat) w :
  n < length front ->
  length (fst (prune leastContributor n pop front w)) = length front - n /\
  fst (prune leastContributor n pop front w) `sublist_of` front.
Proof.
  revert front w. induction n as [|n IH]; intros front w Hn; simpl.
  - split; [lia | done].
  - destruct (leastContributor (fitness_at pop <$> front) w) as [k w'] eqn:Hk.
    assert (Hin : k < length front).
    { pose proof (in_range (fitness_at pop <$> front) w) as H.
      rewrite Hk, length_fmap in H. apply H. lia. }
    assert (Hdel : length (delete k front) = length front - 1).
    { apply length_delete. by apply lookup_lt_is_Some_2. }
    destruct (IH (delete k front) w') as [Hl Hs]; [lia|].
    split; [lia|]. etrans; [exact Hs | apply sublist_delete].
Qed.

Lemma choose_spec slots (pop : Population) (fs : list (list nat)) w :
  length (fst (choose leastContributor slots pop fs w)) =
    slots `min` length (concat fs) /\
  fst (choose leastContributor slots pop fs w) `sublist_of` concat fs.
Proof.
  revert slots w. induction fs as [|front rest IH]; intros slots w; simpl.
  - split; [lia | done].
  - destruct (Nat.eqb_spec slots 0) as [->|Hs]; simpl.
    { split; [done | apply sublist_nil_l]. }
    rewrite length_app.
    destruct (Nat.leb_spec (length front) slots) as [Hfit|Hover].
    + destruct (IH (slots - length front) w) as [Hl Hsub].
      destruct (choose leastContributor (slots - length front) pop rest w)
        as [more w']. simpl in *. split.
      * rewrite length_app. lia.
      * by apply sublist_app.
    + destruct (prune_spec (length front - slots) pop front w) as [Hl Hsub]; [lia|].
      split; [lia|]. by apply sublist_inserts_r.
Qed.

End Choosing.

Lemma flagged_count (r : nat -> nat) (chosen positions : list nat) (pop : Population) :
  length positions = length pop ->
  length (survivors
            (zip_with (fun i ind => mark (r i) (bool_decide (i ∈ chosen)) ind)
               positions pop))
  = length (filter (fun i => i ∈ chosen) positions).
Proof.
  unfold survivors. revert pop.
  induction positions as [|i positions IH]; intros [|x pop] Hlen; simpl in *; try done.
  rewrite filter_cons. unfold IsSelected at 1. simpl.
  case_bool_decide; case_decide; try done; simpl; rewrite IH by lia; done.
Qed.

Lemma chosen_count (chosen positions : list nat) :
  NoDup positions -> NoDup chosen -> chosen ⊆ positions ->
  length (filter (fun i => i ∈ chosen) positions) = length chosen.
Proof.
  intros Hp Hc Hsub. apply Permutation_length, NoDup_Permutation.
  - by apply NoDup_filter.
  - done.
  - intros i. rewrite list_elem_of_filter. split; [by intros [? _]|].
    intros Hi. split; [done | by apply Hsub].
Qed.

(** The selection of the specification keeps the size of the population and
    marks [mu] individuals, or all of them when there are fewer. *)
Lemma indicator_based_selection_marks {W : Type}
    (leastContributor : list RealVector -> W -> nat * W) sel (pop : Population) w :
  indicator_in_range leastContributor ->
  length (fst (indicator_based_selection leastContributor sel pop w)) = length pop /\
  length (survivors (fst (indicator_based_selection leastContributor sel pop w)))
    = m_mu sel `min` length pop.
Proof.
  intros Hin. unfold indicator_based_selection.
  set (positions := seq 0 (length pop)).
  set (fs := fronts (length pop) pop positions).
  assert (Hcover : concat fs ≡ₚ positions).
  { apply fronts_cover. unfold positions. by rewrite length_seq. }
  destruct (choose_spec leastContributor Hin (m_mu sel) pop fs w) as [Hl Hsub].
  destruct (choose leastContributor (m_mu sel) pop fs w) as [chosen w']. simpl in *.
  assert (Hpos : length positions = length pop) by apply length_seq.
  split.
  - rewrite length_zip_with. lia.
  - rewrite flagged_count by done. rewrite chosen_count.
    + by rewrite Hl, Hcover, Hpos.
    + apply NoDup_seq.
    + eapply sublist_NoDup; [|exact Hsub]. rewrite Hcover. apply NoDup_seq.
    + intros i Hi. rewrite <- Hcover. by eapply sublist_subseteq.
Qed.

(** ** One generation with the selection and the update of the specification *)

Lemma survivors_app (l1 l2 : Population) :
  survivors (l1 ++ l2) = survivors l1 ++ survivors l2.
Proof. apply List.filter_app. Qed.

Lemma survivors_map (g : CMAIndividual -> CMAIndividual) (l : Population) :
  (forall x, selected (g x) = selected x) ->
  length (survivors (List.map g l)) = length (survivors l).
Proof.
  intros Hg. unfold survivors, IsSelected.
  induction l as [|x l IH]; simpl; [done|].
  rewrite Hg. destruct (selected x); simpl; lia.
Qed.

Section ModelledGeneration.
Context {W Objective : Type} (E : Collaborators W Objective).
Context (leastContributor : list RealVector -> W -> nat * W).
Context (learningRate stepSizeFloor : R) (observedRate : R -> R).

(** C2.  [step] with the selection operator and [update()] of the
    specification, on a population of [2 * mu] individuals and with an
    indicator whose least contributor is a position of the front.  [step]
    returns.  When selection has run, exactly [mu] of the [2 * mu]
    evaluated individuals are selected, and they are the ones the partition
    puts in front.  When [step] has returned, the population still has
    [2 * mu] individuals of which exactly [mu] are selected, the returned
    set has exactly [mu] entries, and for every [i < mu]: slot [i] holds a
    selected individual [x] with its age raised by one and then updated,
    and entry [i] of the returned set is the search point and the
    unpenalized fitness of that updated individual.  The other slots are as
    the partition left them. *)
Theorem step_selects_and_reports_mu f s w :
  length (m_pop s) = 2 * mu s ->
  indicator_in_range leastContributor ->
  exists pop3 pop4 (solutionSet : list ResultSet) s' w',
    before_partition
      (with_models leastContributor E learningRate stepSizeFloor observedRate) f s w
      = Some pop3 /\
    length pop3 = 2 * mu s /\
    length (survivors pop3) = mu s /\
    step_partition pop3 = Some pop4 /\
    take (mu s) pop4 ≡ₚ survivors pop3 /\
    step (with_models leastContributor E learningRate stepSizeFloor observedRate) f s w
      = Some (solutionSet, s', w') /\
    length (m_pop s') = 2 * mu s /\
    length (survivors (m_pop s')) = mu s /\
    length solutionSet = mu s /\
    (forall i, i < mu s ->
       exists x x', pop4 !! i = Some x /\ selected x = true /\
         x' = update_step_size learningRate stepSizeFloor observedRate
                (mkCMAIndividual (searchPoint x) (penalizedFitness x)
                   (unpenalizedFitness x) (S (age x)) (rank x) (selected x)
                   (noSuccessfulOffspring x) (stepSize x) (targetSuccess x)) /\
         m_pop s' !! i = Some x' /\
         age x' = S (age x) /\
         selected x' = true /\
         solutionSet !! i = Some (makeResultSet (searchPoint x') (unpenalizedFitness x'))) /\
    (forall j, mu s <= j -> m_pop s' !! j = pop4 !! j).
Proof.
  intros Hlen Hin.
  set (E' := with_models leastContributor E learningRate stepSizeFloor observedRate).
  destruct (step_returns_mu_survivors E' f s w Hlen)
    as (pop3 & pop4 & solutionSet & s' & w' & Hbefore & Hlen3 & Hmarked & Hpart &
        Htake & Hstep & Hsol & Hsoleq & Hpop).
  { intros pop1 w1 Hoff.
    destruct (indicator_based_selection_marks leastContributor (m_selection s) pop1 w1 Hin)
      as [Hl Hm].
    split; [exact Hl|]. simpl. rewrite Hm.
    destruct (step_phases E' f s w) as (p1 & w1' & _ & _ & _ & _ & Hoff' & Hl1 & _);
      [lia | |].
    { intros p q _. apply (indicator_based_selection_marks leastContributor _ p q Hin). }
    rewrite Hoff in Hoff'. injection Hoff' as <- <-. fold (mu s). lia. }
  destruct (std_partition_spec IsSelected pop3) as (pop4' & k & Hrun & Hperm & _).
  assert (pop4' = pop4) as ->.
  { unfold step_partition in Hpart. rewrite Hrun in Hpart. by injection Hpart. }
  assert (Hlen4 : length pop4 = 2 * mu s) by (by rewrite (Permutation_length Hperm)).
  assert (Hl : length (List.map (survive E') (take (mu s) pop4)) = mu s).
  { rewrite length_map, length_take. lia. }
  assert (Hkeep : forall x, selected (survive E' x) = selected x) by done.
  exists pop3, pop4, solutionSet, s', w'.
  split; [done|]. split; [done|]. split; [done|]. split; [done|]. split; [done|].
  split; [done|]. split; [|split; [|split; [done|split]]].
  - rewrite Hpop, length_app, Hl, length_drop. lia.
  - rewrite Hpop, survivors_app, length_app, (survivors_map _ _ Hkeep).
    rewrite <- length_app, <- survivors_app, take_drop.
    unfold survivors. by rewrite (Permutation_length (filter_Permutation _ _ _ Hperm)).
  - intros i Hi.
    destruct (lookup_lt_is_Some_2 pop4 i) as [x Hx]; [lia|].
    assert (Hsel : selected x = true).
    { assert (Hel : x ∈ survivors pop3).
      { rewrite <- Htake. apply list_elem_of_lookup. exists i.
        by rewrite lookup_take_lt by lia. }
      apply list_elem_of_In, List.filter_In in Hel. apply Hel. }
    exists x, (survive E' x). split; [done|]. split; [done|]. split; [done|].
    split; [|split; [done|split]].
    + rewrite Hpop, lookup_app_l by lia.
      by rewrite lookup_List_map, lookup_take_lt, Hx by lia.
    + by rewrite Hkeep.
    + subst solutionSet. by rewrite lookup_List_map, lookup_take_lt, Hx by lia.
  - intros j Hj. rewrite Hpop, lookup_app_r by lia. rewrite Hl, lookup_drop.
    by replace (mu s + (j - mu s)) with j by lia.
Qed.

End ModelledGeneration.

Lemma step_selects_and_reports_mu_witness :
  exists pop3 pop4 (solutionSet : list ResultSet) s' w',
    before_partition (with_models (fun _ w => (0, w)) Toy.env 1 0 (fun c => c))
      tt Toy.initialized 0 = Some pop3 /\
    length pop3 = 4 /\
    length (survivors pop3) = 2 /\
    step_partition pop3 = Some pop4 /\
    take 2 pop4 ≡ₚ survivors pop3 /\
    step (with_models (fun _ w => (0, w)) Toy.env 1 0 (fun c => c))
      tt Toy.initialized 0 = Some (solutionSet, s', w') /\
    length (m_pop s') = 4 /\
    length (survivors (m_pop s')) = 2 /\
    length solutionSet = 2 /\
    (forall i, i < 2 ->
       exists x x', pop4 !! i = Some x /\ selected x = true /\
         x' = update_step_size 1 0 (fun c => c)
                (mkCMAIndividual (searchPoint x) (penalizedFitness x)
                   (unpenalizedFitness x) (S (age x)) (rank x) (selected x)
                   (noSuccessfulOffspring x) (stepSize x) (targetSuccess x)) /\
         m_pop s' !! i = Some x' /\
         age x' = S (age x) /\
         selected x' = true /\
         solutionSet !! i = Some (makeResultSet (searchPoint x') (unpenalizedFitness x'))) /\
    (forall j, 2 <= j -> m_pop s' !! j = pop4 !! j).
Proof.
  apply (step_selects_and_reports_mu Toy.env (fun _ w => (0, w)) 1 0 (fun c => c)
           tt Toy.initialized 0).
  - reflexivity.
  - intros front w Hfront. simpl. lia.
Defined.
